(** * ringbuf stress harness (src/t_stress.c): message codec and worker loop

    A shallow embedding of the stress test of the ring buffer: the xorshift
    generator, the self-checksummed frame codec, and the producer/consumer
    worker loop as a small-step machine that runs interleaved with the other
    workers over the shared region [rbuf].

    Integer model (LP64): [unsigned char] is 8 bits, [unsigned] and
    [uint32_t] are 32 bits, [size_t], [ssize_t] and [unsigned long] are 64
    bits.  Every C integer is a [Z] and each wrap-around is written out.
    A memory object is a [list Z] of byte values; an access outside the
    object is undefined behaviour and is modelled as [None]. *)

From stdpp Require Import base option list.
From Stdlib Require Import ZArith Lia.

#[local] Open Scope Z_scope.

(** ** Machine integers *)

Definition u8 (x : Z) : Z := x mod 2 ^ 8.
Definition u32 (x : Z) : Z := x mod 2 ^ 32.
Definition u64 (x : Z) : Z := x mod 2 ^ 64.

(** Conversion of a 64-bit pattern to [ssize_t] (two's complement). *)
Definition s64 (x : Z) : Z :=
  let y := u64 x in if y <? 2 ^ 63 then y else y - 2 ^ 64.

(** A byte value, and a memory object holding only byte values. *)
Definition is_byte (b : Z) : Prop := 0 <= b < 256.
Definition bytes (buf : list Z) : Prop := Forall is_byte buf.

(** ** Memory objects *)

(** [buf[i]] as an rvalue. *)
Definition load (buf : list Z) (i : Z) : option Z := buf !! Z.to_nat i.

(** [buf[i] = v]. *)
Definition store (buf : list Z) (i v : Z) : option (list Z) :=
  if decide (Z.to_nat i < length buf)%nat
  then Some (<[Z.to_nat i := v]> buf) else None.

(** [memcpy(&dst[off], src, n)]: both ranges must lie inside their objects. *)
Definition memcpy (dst : list Z) (off : Z) (src : list Z) (n : Z)
  : option (list Z) :=
  if decide (Z.to_nat off + Z.to_nat n <= length dst)%nat then
    if decide (Z.to_nat n <= length src)%nat then
      Some (take (Z.to_nat off) dst ++ take (Z.to_nat n) src
              ++ drop (Z.to_nat off + Z.to_nat n) dst)
    else None
  else None.

(** ** Constants of the harness *)

Definition RBUF_SIZE : Z := 512.
Definition MAGIC_BYTE : Z := 0x5a.
Definition CHAR_BIT : Z := 8.

(** Modelled from the spec: the macro [MIN] of utils.h, which is not part of
    the sources at hand; the private buffer is "never larger than" the shared
    capacity, so [MIN] is the minimum of its arguments. *)
Definition MIN (a b : Z) : Z := Z.min a b.

(** [sizeof(buf)] for [unsigned char buf[MIN((1 << CHAR_BIT), RBUF_SIZE)]]. *)
Definition BUF_SIZE : Z := MIN (Z.shiftl 1 CHAR_BIT) RBUF_SIZE.

(** Initial value of the thread-local [fast_random_seed]. *)
Definition fast_random_seed_init : Z := 5381.

(** ** The generator *)

(** [fast_random]: takes the thread's seed, returns the value returned and
    the seed left behind. *)
Definition fast_random (fast_random_seed : Z) : Z * Z :=
  let x := fast_random_seed in
  let x := Z.lxor x (u32 (Z.shiftl x 13)) in
  let x := Z.lxor x (Z.shiftr x 17) in
  let x := Z.lxor x (u32 (Z.shiftl x 5)) in
  (x, x).

(** ** The codec *)

(** The loop [while (n--) { buf[i] = '!' + (fast_random() % ('~' - '!'));
    cksum ^= buf[i]; i++; }] of [generate_message]; it runs [n] times. *)
Fixpoint generate_loop (n : nat) (seed : Z) (buf : list Z) (i cksum : Z)
  : option (Z * list Z * Z * Z) :=
  match n with
  | O => Some (seed, buf, i, cksum)
  | S n' =>
      let '(r, seed') := fast_random seed in
      buf' ← store buf i (u8 (33 + r mod (126 - 33)));
      b ← load buf' i;
      generate_loop n' seed' buf' (u32 (i + 1)) (u8 (Z.lxor cksum b))
  end.

(** [generate_message(buf, buflen)]: returns the seed left behind, the buffer
    as written and the value returned.  [buflen - 2] is computed in [size_t];
    a zero divisor is undefined behaviour. *)
Definition generate_message (seed : Z) (buf : list Z) (buflen : Z)
  : option (Z * list Z * Z) :=
  let m := u64 (buflen - 2) in
  if decide (m = 0) then None else
  let '(r, seed) := fast_random seed in
  let len := u32 (r mod m) in
  '(seed, buf, i, cksum) ← generate_loop (Z.to_nat len) seed buf 1 0;
  buf ← store buf i cksum;
  let i := u32 (i + 1) in
  buf ← store buf 0 (u8 len);
  Some (seed, buf, i).

(** The loop [while (len--) { cksum ^= buf[i++]; }] of [verify_message]. *)
Fixpoint verify_loop (n : nat) (buf : list Z) (i cksum : Z) : option (Z * Z) :=
  match n with
  | O => Some (i, cksum)
  | S n' =>
      b ← load buf i;
      verify_loop n' buf (u32 (i + 1)) (u8 (Z.lxor cksum b))
  end.

(** [verify_message(buf)]: [buf] is the object from the pointer on. *)
Definition verify_message (buf : list Z) : option Z :=
  b0 ← load buf 0;
  let len := u8 b0 in
  '(i, cksum) ← verify_loop (Z.to_nat len) buf 1 0;
  bi ← load buf i;
  if decide (bi ≠ cksum) then Some (-1) else Some (s64 (u32 (u32 b0 + 2))).

(** The exclusive-or of a list of bytes. *)
Definition xor_all (l : list Z) : Z := foldr Z.lxor 0 l.

(** The bytes that [n] rounds of the generator loop draw from [seed], and the
    seed they leave. *)
Fixpoint random_payload (n : nat) (seed : Z) : list Z * Z :=
  match n with
  | O => ([], seed)
  | S n' =>
      let '(r, seed') := fast_random seed in
      let '(l, seed'') := random_payload n' seed' in
      (u8 (33 + r mod (126 - 33)) :: l, seed'')
  end.

(** For [buflen > 2]: the payload length that [generate_message] draws
    first, the payload and seed that follow, and the frame these make up. *)
Definition chosen_length (seed buflen : Z) : Z :=
  (fast_random seed).1 mod (buflen - 2).

Definition chosen_payload (seed buflen : Z) : list Z * Z :=
  random_payload (Z.to_nat (chosen_length seed buflen)) (fast_random seed).2.

Definition frame (len : Z) (payload : list Z) : list Z :=
  len :: payload ++ [xor_all payload].

Definition message (seed buflen : Z) : list Z :=
  frame (chosen_length seed buflen) (chosen_payload seed buflen).1.

(** ** The worker loop of [ringbuf_stress]

    One worker is a small-step machine over the control points of the loop
    [while (!stop) { ... }]; the ring buffer is an external collaborator whose
    answers are supplied from outside, and the shared region [rbuf] and the
    flag [stop] are shared with the other workers and the signal handler. *)

(** The assertions of the loop body. *)
Inductive assertion : Type :=
| guard_intact      (* assert(rbuf[RBUF_SIZE] == MAGIC_BYTE) *)
| consume_offset    (* assert(off < RBUF_SIZE), consumer *)
| verify_positive   (* assert(ret > 0) *)
| verify_within     (* assert(ret <= (ssize_t)rem) *)
| acquire_offset.   (* assert(off < RBUF_SIZE), producer *)

(** Control points: the statement the worker executes next. *)
Inductive pc : Type :=
| Loop              (* while (!stop) *)
| Guard             (* the guard assertion, then if (id == 0) *)
| Consume           (* len = ringbuf_consume(ringbuf, &off) *)
| Claimed           (* rem = len; assert(off < RBUF_SIZE) *)
| Decode            (* while (rem) { verify, assert, assert, advance } *)
| Release           (* ringbuf_release(ringbuf, len); continue *)
| Generate          (* len = generate_message(buf, sizeof(buf) - 1) *)
| Acquire           (* ret = ringbuf_acquire(ringbuf, t, len) *)
| Reserved          (* off = (size_t)ret; assert(off < RBUF_SIZE) *)
| Copy              (* memcpy(&rbuf[off], buf, len) *)
| Produce           (* ringbuf_produce(ringbuf, t) *)
| EndBarrier        (* pthread_barrier_wait(&barrier) after the loop *)
| Aborted (a : assertion)
| Undefined.

(** The locals of one worker thread and its thread-local seed. *)
Record worker : Type := Worker {
  w_id : Z;
  w_seed : Z;
  w_pc : pc;
  w_buf : list Z;
  w_len : Z;
  w_off : Z;
  w_rem : Z;
  w_ret : Z
}.

(** The state shared by all threads. *)
Record shared : Type := Shared {
  rbuf : list Z;
  stop : bool
}.

(** What the ring buffer answers to the call made by a step: the length
    returned by [ringbuf_consume] and the offset it stores through [&off], the
    value returned by [ringbuf_acquire].  The harness reads [off] only after
    a nonzero length. *)
Record oracle : Type := Oracle {
  o_len : Z;
  o_off : Z;
  o_ret : Z
}.

(** The calls and memory accesses a step performs. *)
Inductive event : Type :=
| EvObserve (guard : Z)          (* rbuf[RBUF_SIZE] read at the loop head *)
| EvConsume (len off : Z)
| EvVerify (off ret : Z)         (* verify_message(&rbuf[off]) returned ret *)
| EvRelease (len : Z)
| EvGenerate (msg : list Z)      (* the bytes generate_message returned *)
| EvAcquire (len ret : Z)
| EvCopy (off len : Z)           (* memcpy into rbuf[off .. off+len) *)
| EvProduce.

Definition set_pc (w : worker) (p : pc) : worker :=
  Worker (w_id w) (w_seed w) p (w_buf w) (w_len w) (w_off w) (w_rem w)
    (w_ret w).

Definition set_claim (w : worker) (len off : Z) : worker :=
  Worker (w_id w) (w_seed w) (w_pc w) (w_buf w) len off (w_rem w) (w_ret w).

Definition set_rem (w : worker) (rem : Z) : worker :=
  Worker (w_id w) (w_seed w) (w_pc w) (w_buf w) (w_len w) (w_off w) rem
    (w_ret w).

Definition set_cursor (w : worker) (ret off rem : Z) : worker :=
  Worker (w_id w) (w_seed w) (w_pc w) (w_buf w) (w_len w) off rem ret.

Definition set_message (w : worker) (seed : Z) (buf : list Z) (len : Z)
  : worker :=
  Worker (w_id w) seed (w_pc w) buf len (w_off w) (w_rem w) (w_ret w).

Definition set_ret (w : worker) (ret : Z) : worker :=
  Worker (w_id w) (w_seed w) (w_pc w) (w_buf w) (w_len w) (w_off w) (w_rem w)
    ret.

Definition set_off (w : worker) (off : Z) : worker :=
  Worker (w_id w) (w_seed w) (w_pc w) (w_buf w) (w_len w) off (w_rem w)
    (w_ret w).

Definition set_rbuf (sh : shared) (r : list Z) : shared := Shared r (stop sh).

(** One step of a worker. *)
Definition worker_step (o : oracle) (sh : shared) (w : worker)
  : worker * shared * option event :=
  match w_pc w with
  | Loop =>
      if stop sh then (set_pc w EndBarrier, sh, None)
      else (set_pc w Guard, sh, None)
  | Guard =>
      match load (rbuf sh) RBUF_SIZE with
      | None => (set_pc w Undefined, sh, None)
      | Some g =>
          if decide (g = MAGIC_BYTE) then
            (set_pc w (if decide (w_id w = 0) then Consume else Generate),
             sh, Some (EvObserve g))
          else (set_pc w (Aborted guard_intact), sh, Some (EvObserve g))
      end
  | Consume =>
      let len := u64 (o_len o) in
      let off := u64 (o_off o) in
      (set_pc (set_claim w len off) (if decide (len ≠ 0) then Claimed else Loop),
       sh, Some (EvConsume len off))
  | Claimed =>
      let w := set_rem w (w_len w) in
      if decide (w_off w < RBUF_SIZE) then (set_pc w Decode, sh, None)
      else (set_pc w (Aborted consume_offset), sh, None)
  | Decode =>
      if decide (w_rem w ≠ 0) then
        match verify_message (drop (Z.to_nat (w_off w)) (rbuf sh)) with
        | None => (set_pc w Undefined, sh, None)
        | Some ret =>
            let ev := Some (EvVerify (w_off w) ret) in
            if decide (ret > 0) then
              if decide (ret <= s64 (w_rem w)) then
                (set_cursor w ret (u64 (w_off w + ret)) (u64 (w_rem w - ret)),
                 sh, ev)
              else (set_pc (set_ret w ret) (Aborted verify_within), sh, ev)
            else (set_pc (set_ret w ret) (Aborted verify_positive), sh, ev)
        end
      else (set_pc w Release, sh, None)
  | Release => (set_pc w Loop, sh, Some (EvRelease (w_len w)))
  | Generate =>
      match generate_message (w_seed w) (w_buf w) (BUF_SIZE - 1) with
      | None => (set_pc w Undefined, sh, None)
      | Some (seed, buf, len) =>
          (set_pc (set_message w seed buf len) Acquire, sh,
           Some (EvGenerate (take (Z.to_nat len) buf)))
      end
  | Acquire =>
      let ret := s64 (o_ret o) in
      (set_pc (set_ret w ret) (if decide (ret ≠ -1) then Reserved else Loop),
       sh, Some (EvAcquire (w_len w) ret))
  | Reserved =>
      let w := set_off w (u64 (w_ret w)) in
      if decide (w_off w < RBUF_SIZE) then (set_pc w Copy, sh, None)
      else (set_pc w (Aborted acquire_offset), sh, None)
  | Copy =>
      match memcpy (rbuf sh) (w_off w) (w_buf w) (w_len w) with
      | None => (set_pc w Undefined, sh, None)
      | Some r =>
          (set_pc w Produce, set_rbuf sh r, Some (EvCopy (w_off w) (w_len w)))
      end
  | Produce => (set_pc w Loop, sh, Some EvProduce)
  | EndBarrier | Aborted _ | Undefined => (w, sh, None)
  end.

(** A worker running on its own: one step per answer, nothing else touching
    the shared state in between. *)
Fixpoint solo (os : list oracle) (sh : shared) (w : worker)
  : worker * shared * list event :=
  match os with
  | [] => (w, sh, [])
  | o :: os' =>
      let '(w1, sh1, ev) := worker_step o sh w in
      let '(w2, sh2, evs) := solo os' sh1 w1 in
      (w2, sh2, option_list ev ++ evs)
  end.

(** ** The process *)

(** The threads, the shared state and the calls made so far, each tagged
    with the index of the thread that made it. *)
Record system : Type := System {
  workers : list worker;
  mem : shared;
  trace : list (nat * event)
}.

(** A scheduling decision: the alarm handler [ding] runs, or thread [tid]
    takes one step and the ring buffer answers [o]. *)
Inductive action : Type :=
| Ding
| Run (tid : nat) (o : oracle).

(** A worker thread as [pthread_create] starts it, at the loop head; locals
    that are not initialised hold 0. *)
Definition spawn (i : nat) : worker :=
  Worker (Z.of_nat i) fast_random_seed_init Loop
    (replicate (Z.to_nat BUF_SIZE) 0) 0 0 0 0.

(** [run_test] up to the point where the threads run: the region and the
    guard byte filled with the magic byte, [stop] cleared. *)
Definition run_test (nworkers : nat) : system :=
  System (spawn <$> seq 0 nworkers)
    (Shared (replicate (Z.to_nat (RBUF_SIZE + 1)) MAGIC_BYTE) false) [].

(** A failed assertion or undefined behaviour ends the process. *)
Definition dead (w : worker) : bool :=
  match w_pc w with
  | Aborted _ | Undefined => true
  | _ => false
  end.

Definition crashed (s : system) : bool := existsb dead (workers s).

Definition sys_step (s : system) (a : action) : system :=
  if crashed s then s else
  match a with
  | Ding => System (workers s) (Shared (rbuf (mem s)) true) (trace s)
  | Run tid o =>
      match workers s !! tid with
      | None => s
      | Some w =>
          let '(w', sh', ev) := worker_step o (mem s) w in
          System (<[tid := w']> (workers s)) sh'
            (trace s ++ (pair tid <$> option_list ev))
      end
  end.

Definition run (s : system) (acts : list action) : system :=
  foldl sys_step s acts.

(** The events of one thread. *)
Definition events_of (tid : nat) (tr : list (nat * event)) : list event :=
  omap (fun '(t, e) => if decide (t = tid) then Some e else None) tr.




(** The messages a thread has generated so far. *)
Definition generated (es : list event) : list (list Z) :=
  omap (fun e => match e with EvGenerate m => Some m | _ => None end) es.

(** The seed a thread holds after [k] calls of [generate_message], and the
    [k]-th message it generates. *)
Definition next_seed (seed : Z) : Z := (chosen_payload seed (BUF_SIZE - 1)).2.
Definition nth_seed (k : nat) : Z := Nat.iter k next_seed fast_random_seed_init.
Definition nth_message (k : nat) : list Z :=
  message (nth_seed k) (BUF_SIZE - 1).

(** A well-formed frame: a length byte, that many payload bytes, and their
    exclusive-or. *)
Definition is_frame (f : list Z) : Prop :=
  exists (L : Z) (payload : list Z),
    is_byte L /\ Z.of_nat (length payload) = L /\ bytes payload /\
    f = frame L payload.

(** The ring buffer's contract on offsets, on the calls made so far. *)
Definition offset_contract (e : event) : Prop :=
  match e with
  | EvAcquire _ ret => ret = -1 \/ 0 <= ret < RBUF_SIZE
  | EvConsume len off => len ≠ 0 -> 0 <= off < RBUF_SIZE
  | _ => True
  end.

(** A copy-in that stays inside the region. *)
Definition copy_in_region (e : event) : Prop :=
  match e with
  | EvCopy off len => off + len <= RBUF_SIZE
  | _ => True
  end.


(** The calls of [verify_message] that decode the frames [fs] laid out back
    to back from offset [off]. *)
Fixpoint decode_events (off : Z) (fs : list (list Z)) : list event :=
  match fs with
  | [] => []
  | f :: fs' =>
      EvVerify off (Z.of_nat (length f))
        :: decode_events (off + Z.of_nat (length f)) fs'
  end.

(** The state of the region and of the threads while the guard byte is
    intact. *)
Definition guard_kept (s : system) : Prop :=
  length (rbuf (mem s)) = Z.to_nat (RBUF_SIZE + 1) /\
  load (rbuf (mem s)) RBUF_SIZE = Some MAGIC_BYTE /\
  Forall (fun w => 0 <= w_off w /\ w_pc w ≠ Aborted guard_intact) (workers s) /\
  Forall (fun te => forall g, te.2 = EvObserve g -> g = MAGIC_BYTE) (trace s).

(** What the offset contract gives about a thread and its calls so far. *)
Definition offsets_ok (w : worker) (es : list event) : Prop :=
  (w_pc w = Claimed -> 0 <= w_off w < RBUF_SIZE) /\
  (w_pc w = Reserved -> 0 <= u64 (w_ret w) < RBUF_SIZE) /\
  (w_pc w = Copy -> 0 <= w_off w < RBUF_SIZE) /\
  w_pc w ≠ Aborted consume_offset /\
  w_pc w ≠ Aborted acquire_offset /\
  Forall (fun e => forall off len, e = EvCopy off len -> 0 <= off < RBUF_SIZE)
    es.

(** A claim that lies inside the region. *)
Definition span_contract (e : event) : Prop :=
  match e with
  | EvConsume len off => len ≠ 0 -> off + len <= RBUF_SIZE
  | _ => True
  end.

(** What the span contract gives about the consumer's cursor. *)
Definition cursor_ok (w : worker) (es : list event) : Prop :=
  (w_pc w = Claimed ->
   0 <= w_off w /\ 0 <= w_len w /\ w_off w + w_len w <= RBUF_SIZE) /\
  (w_pc w = Decode ->
   0 <= w_off w /\ 0 <= w_rem w /\ w_off w + w_rem w <= RBUF_SIZE) /\
  Forall (fun e => forall off ret, e = EvVerify off ret -> 0 <= off < RBUF_SIZE)
    es.

(** ** Further notions about runs *)

(** The shared state after a copy-in of the bytes [m] at offset [off]. *)
Definition published (sh : shared) (off : Z) (m : list Z) : shared :=
  Shared (take (Z.to_nat off) (rbuf sh) ++ m
            ++ drop (Z.to_nat off + length m) (rbuf sh))
    (stop sh).

(** The calls of the consumer's branch and of the producer's branch; the
    guard check belongs to both. *)
Definition consumer_event (e : event) : Prop :=
  match e with
  | EvObserve _ | EvConsume _ _ | EvVerify _ _ | EvRelease _ => True
  | _ => False
  end.

Definition producer_event (e : event) : Prop :=
  match e with
  | EvObserve _ | EvGenerate _ | EvAcquire _ _ | EvCopy _ _ | EvProduce => True
  | _ => False
  end.

(** The control points of the two branches; the loop head, the guard check
    and the end of the loop belong to both. *)
Definition consumer_pc (p : pc) : Prop :=
  match p with
  | Generate | Acquire | Reserved | Copy | Produce
  | Aborted acquire_offset => False
  | _ => True
  end.

Definition producer_pc (p : pc) : Prop :=
  match p with
  | Consume | Claimed | Decode | Release | Aborted consume_offset
  | Aborted verify_positive | Aborted verify_within => False
  | _ => True
  end.

(** The number of bytes [verify_message] has returned since the last
    [ringbuf_consume]. *)
Definition account (d : Z) (e : event) : Z :=
  match e with
  | EvConsume _ _ => 0
  | EvVerify _ ret => d + ret
  | _ => d
  end.

Definition decoded (es : list event) : Z := foldl account 0 es.

(** A copy-in that writes byte [j] of the region. *)
Definition covers (j : Z) (e : event) : Prop :=
  match e with
  | EvCopy off len => off <= j < off + len
  | _ => False
  end.

(** Within [bound] steps of its own the worker is at the end barrier, or the
    process is dead. *)
Definition finishes (o : oracle) (bound : nat) (sh : shared) (w : worker)
  : Prop :=
  exists k w' sh' evs,
    (k <= bound)%nat /\
    solo (replicate k o) sh w = (w', sh', evs) /\
    (w_pc w' = EndBarrier \/ dead w' = true).

(** The calls [es1] of a thread end with the generation of a message of
    [len] bytes and a successful acquire of [len] bytes at offset [off]. *)
Definition reserved_copy (es1 : list event) (off len : Z) : Prop :=
  exists es0 m ret,
    es1 = es0 ++ [EvGenerate m; EvAcquire len ret] /\
    Z.of_nat (length m) = len /\ 2 <= len <= 254 /\
    ret ≠ -1 /\ off = u64 ret.

(** ** The rest of an iteration *)






(** The offset of the region that the worker's next step addresses: the
    consumer's [verify_message(&rbuf[off])] and the producer's
    [memcpy(&rbuf[off], buf, len)]. *)
Definition addresses (w : worker) : option Z :=
  match w_pc w with
  | Decode => if decide (w_rem w ≠ 0) then Some (w_off w) else None
  | Copy => Some (w_off w)
  | _ => None
  end.

(** What the two assertions [off < RBUF_SIZE] give by themselves: where the
    decoding of a claim starts. *)
Definition claim_start_ok (w : worker) : Prop :=
  (w_pc w = Claimed -> 0 <= w_off w /\ 0 <= w_len w < 2 ^ 64) /\
  (w_pc w = Decode ->
   0 <= w_rem w <= w_len w /\ w_len w < 2 ^ 64 /\
   (w_rem w = w_len w -> 0 <= w_off w < RBUF_SIZE)).

(** * Properties of the codec *)

Example fast_random_5381 : fast_random 5381 = (1454784245, 1454784245).
Proof. reflexivity. Qed.

Example message_5381 :
  take 4 (message 5381 255) = [90; 72; 103; 50] /\
  length (message 5381 255) = 92%nat.
Proof. split; reflexivity. Qed.

Example verify_message_ok : verify_message [2; 65; 66; 3; 9] = Some 4.
Proof. reflexivity. Qed.

Example verify_message_bad : verify_message [2; 65; 67; 3; 9] = Some (-1).
Proof. reflexivity. Qed.

Example verify_message_short : verify_message [2; 65] = None.
Proof. reflexivity. Qed.

(** One producer iteration with a reservation at offset 10, then the consumer
    claiming the 92 bytes written there. *)
Example produce_then_consume :
  let o := Oracle 0 0 0 in
  let s := run (run_test 2)
             [Run 1 o; Run 1 o; Run 1 o; Run 1 (Oracle 0 0 10); Run 1 o;
              Run 1 o; Run 1 o; Run 0 o; Run 0 o; Run 0 (Oracle 92 10 0);
              Run 0 o; Run 0 o; Run 0 o; Run 0 o]%nat in
  drop 2 (trace s) =
    [(1, EvAcquire 92 10); (1, EvCopy 10 92); (1, EvProduce);
     (0, EvObserve 90); (0, EvConsume 92 10); (0, EvVerify 10 92);
     (0, EvRelease 92)]%nat /\
  w_pc <$> workers s = [Loop; Loop].
Proof. split; reflexivity. Qed.

(** The same with one payload byte changed before the consumer reads it: the
    consumer stops on [assert(ret > 0)]. *)
Example corrupted_frame_aborts :
  let o := Oracle 0 0 0 in
  let s := run (run_test 2)
             [Run 1 o; Run 1 o; Run 1 o; Run 1 (Oracle 0 0 10); Run 1 o;
              Run 1 o; Run 1 o]%nat in
  let s' := System (workers s)
              (Shared (<[11%nat := 73]> (rbuf (mem s))) false) (trace s) in
  w_pc <$> workers (run s' [Run 0 o; Run 0 o; Run 0 (Oracle 92 10 0);
                            Run 0 o; Run 0 o; Run 1 o]%nat) =
    [Aborted verify_positive; Loop].
Proof. reflexivity. Qed.

(** A reservation that ends past the region overwrites the guard byte, and
    the next loop head stops on the guard assertion. *)
Example overrun_detected :
  let o := Oracle 0 0 0 in
  let s := run (run_test 2)
             [Run 1 o; Run 1 o; Run 1 o; Run 1 (Oracle 0 0 421); Run 1 o;
              Run 1 o; Run 1 o; Run 0 o; Run 0 o]%nat in
  load (rbuf (mem s)) RBUF_SIZE = Some 74 /\
  w_pc <$> workers s = [Aborted guard_intact; Loop].
Proof. split; reflexivity. Qed.

(** * The generator stays within 32 bits *)

Section Generator.

Lemma wrap_lxor (n a b : Z) :
  0 <= n -> Z.lxor a b mod 2 ^ n = Z.lxor (a mod 2 ^ n) (b mod 2 ^ n).
Proof.
  intros Hn. rewrite <- !Z.land_ones by assumption.
  apply Z.bits_inj'. intros k Hk.
  rewrite Z.lxor_spec, !Z.land_spec, Z.lxor_spec.
  destruct (Z.testbit (Z.ones n) k);
    rewrite ?andb_true_r, ?andb_false_r; reflexivity.
Qed.

Lemma lxor_u32 a b :
  0 <= a < 2 ^ 32 -> 0 <= b < 2 ^ 32 -> 0 <= Z.lxor a b < 2 ^ 32.
Proof.
  intros Ha Hb.
  rewrite <- (Z.mod_small a (2 ^ 32)), <- (Z.mod_small b (2 ^ 32)) by lia.
  rewrite <- wrap_lxor by lia. apply Z.mod_pos_bound. lia.
Qed.

Lemma u32_range x : 0 <= u32 x < 2 ^ 32.
Proof. unfold u32. apply Z.mod_pos_bound. lia. Qed.

Lemma shiftr_u32 x k : 0 <= k -> 0 <= x < 2 ^ 32 -> 0 <= Z.shiftr x k < 2 ^ 32.
Proof.
  intros Hk Hx. rewrite Z.shiftr_div_pow2 by assumption.
  assert (0 < 2 ^ k) by (apply Z.pow_pos_nonneg; lia).
  split; [apply Z.div_pos; lia|].
  apply Z.le_lt_trans with x; [|lia]. apply Z.div_le_upper_bound; nia.
Qed.

(** [fast_random] maps a 32-bit seed to a 32-bit value and stores that very
    value as the next seed. *)
Lemma fast_random_range seed :
  0 <= seed < 2 ^ 32 ->
  0 <= (fast_random seed).1 < 2 ^ 32 /\
  (fast_random seed).2 = (fast_random seed).1.
Proof.
  intros Hs. unfold fast_random. simpl. split; [|reflexivity].
  repeat (apply lxor_u32 || apply u32_range || apply shiftr_u32
          || assumption || lia).
Qed.

End Generator.

#[local] Opaque fast_random.
#[global] Arguments u8 : simpl never.
#[global] Arguments u32 : simpl never.
#[global] Arguments u64 : simpl never.
#[global] Arguments s64 : simpl never.

Section Bytes.

Lemma u8_byte b : is_byte b -> u8 b = b.
Proof. unfold is_byte, u8. intros. apply Z.mod_small. lia. Qed.

Lemma u8_is_byte x : is_byte (u8 x).
Proof. unfold is_byte, u8. pose proof (Z.mod_pos_bound x (2 ^ 8)). lia. Qed.

Lemma u8_lxor a b : u8 (Z.lxor a b) = Z.lxor (u8 a) (u8 b).
Proof. unfold u8. apply wrap_lxor. lia. Qed.

Lemma lxor_byte a b : is_byte a -> is_byte b -> is_byte (Z.lxor a b).
Proof.
  intros Ha Hb. rewrite <- (u8_byte a Ha), <- (u8_byte b Hb), <- u8_lxor.
  apply u8_is_byte.
Qed.

Lemma xor_all_byte l : bytes l -> is_byte (xor_all l).
Proof.
  induction 1 as [|b l Hb _ IH]; simpl.
  - unfold is_byte. lia.
  - apply lxor_byte; assumption.
Qed.

Lemma xor_all_app l1 l2 :
  xor_all (l1 ++ l2) = Z.lxor (xor_all l1) (xor_all l2).
Proof.
  induction l1 as [|b l1 IH]; simpl.
  - symmetry. apply Z.lxor_0_l.
  - rewrite IH. symmetry. apply Z.lxor_assoc.
Qed.

Lemma lxor_cancel_l a b c : Z.lxor a b = Z.lxor a c -> b = c.
Proof.
  intros H. apply Z.lxor_eq.
  replace (Z.lxor b c) with (Z.lxor (Z.lxor a b) (Z.lxor a c)).
  - rewrite H. apply Z.lxor_nilpotent.
  - rewrite Z.lxor_assoc, <- (Z.lxor_assoc b a c), (Z.lxor_comm b a).
    rewrite Z.lxor_assoc, <- Z.lxor_assoc, Z.lxor_nilpotent.
    apply Z.lxor_0_l.
Qed.

(** Changing one byte of a payload changes its exclusive-or. *)
Lemma xor_all_insert_ne (l : list Z) (j : nat) (b v : Z) :
  l !! j = Some b -> v <> b -> xor_all (<[j := v]> l) <> xor_all l.
Proof.
  intros Hj Hv.
  rewrite insert_take_drop by (eapply lookup_lt_Some; eassumption).
  rewrite <- (take_drop_middle l j b Hj) at 3.
  rewrite !xor_all_app. simpl. intros H.
  apply lxor_cancel_l in H.
  rewrite (Z.lxor_comm v), (Z.lxor_comm b) in H.
  apply lxor_cancel_l in H. contradiction.
Qed.

Lemma printable_range r : 33 <= u8 (33 + r mod (126 - 33)) < 126.
Proof.
  pose proof (Z.mod_pos_bound r (126 - 33)).
  unfold u8. rewrite Z.mod_small; lia.
Qed.

Lemma random_payload_length n seed :
  length (random_payload n seed).1 = n.
Proof.
  revert seed. induction n as [|n IH]; intros seed; simpl; [reflexivity|].
  destruct (fast_random seed) as [r seed'].
  specialize (IH seed'). destruct (random_payload n seed'). simpl in *.
  f_equal. exact IH.
Qed.

Lemma random_payload_printable n seed :
  Forall (fun b => 33 <= b < 126) (random_payload n seed).1.
Proof.
  revert seed. induction n as [|n IH]; intros seed; simpl; [constructor|].
  destruct (fast_random seed) as [r seed'].
  specialize (IH seed'). destruct (random_payload n seed'). simpl in *.
  constructor; [apply printable_range | assumption].
Qed.

Lemma random_payload_bytes n seed : bytes (random_payload n seed).1.
Proof.
  eapply Forall_impl; [apply random_payload_printable|].
  unfold is_byte. simpl. intros. lia.
Qed.

End Bytes.

Section Loops.

Lemma load_middle (pre post : list Z) (x i : Z) :
  i = Z.of_nat (length pre) -> load (pre ++ x :: post) i = Some x.
Proof.
  intros ->. unfold load. rewrite Nat2Z.id. by apply list_lookup_middle.
Qed.

Lemma store_middle (pre post : list Z) (x v i : Z) :
  i = Z.of_nat (length pre) ->
  store (pre ++ x :: post) i v = Some (pre ++ v :: post).
Proof.
  intros ->. unfold store. rewrite Nat2Z.id.
  rewrite decide_True by (rewrite length_app; simpl; lia).
  f_equal. replace (length pre) with (length pre + 0)%nat at 1 by lia.
  by rewrite insert_app_r.
Qed.

Lemma u32_small x : 0 <= x < 2 ^ 32 -> u32 x = x.
Proof. intros. unfold u32. by apply Z.mod_small. Qed.

Lemma generate_loop_spec n : forall seed pre mid post ck,
  length mid = n -> is_byte ck -> Z.of_nat (length pre + n) < 2 ^ 32 ->
  generate_loop n seed (pre ++ mid ++ post) (Z.of_nat (length pre)) ck =
  Some ((random_payload n seed).2,
        pre ++ (random_payload n seed).1 ++ post,
        Z.of_nat (length pre + n),
        Z.lxor ck (xor_all (random_payload n seed).1)).
Proof.
  induction n as [|n IH]; intros seed pre mid post ck Hlen Hck Hbound.
  - destruct mid; [|discriminate]. simpl.
    rewrite Z.lxor_0_r, Nat.add_0_r. reflexivity.
  - destruct mid as [|x mid]; [discriminate|]. injection Hlen as Hlen.
    simpl. destruct (fast_random seed) as [r seed'].
    pose proof (printable_range r) as Hr.
    remember (u8 (33 + r mod (126 - 33))) as b eqn:Eb. clear Eb.
    assert (is_byte b) as Hb by (unfold is_byte; lia).
    rewrite (store_middle pre (mid ++ post) x b) by reflexivity. simpl.
    rewrite (load_middle pre (mid ++ post) b) by reflexivity. simpl.
    rewrite u32_small by lia.
    rewrite (u8_byte _ (lxor_byte _ _ Hck Hb)).
    specialize (IH seed' (pre ++ [b]) mid post (Z.lxor ck b)).
    rewrite length_app in IH. simpl in IH.
    replace (Z.of_nat (length pre) + 1) with (Z.of_nat (length pre + 1))
      by lia.
    rewrite <- (assoc_L (++)) in IH. simpl in IH.
    rewrite IH; [|assumption|by apply lxor_byte|lia].
    destruct (random_payload n seed') as [p seed'']. simpl.
    rewrite <- (assoc_L (++)). simpl. rewrite Z.lxor_assoc.
    by replace (length pre + 1 + n)%nat with (length pre + S n)%nat by lia.
Qed.

Lemma verify_loop_spec n : forall pre mid post ck,
  length mid = n -> bytes mid -> is_byte ck ->
  Z.of_nat (length pre + n) < 2 ^ 32 ->
  verify_loop n (pre ++ mid ++ post) (Z.of_nat (length pre)) ck =
  Some (Z.of_nat (length pre + n), Z.lxor ck (xor_all mid)).
Proof.
  induction n as [|n IH]; intros pre mid post ck Hlen Hmid Hck Hbound.
  - destruct mid; [|discriminate]. simpl.
    rewrite Z.lxor_0_r, Nat.add_0_r. reflexivity.
  - destruct mid as [|x mid]; [discriminate|]. injection Hlen as Hlen.
    apply Forall_cons in Hmid as [Hx Hmid]. simpl.
    rewrite (load_middle pre (mid ++ post) x) by reflexivity. simpl.
    rewrite u32_small by lia.
    rewrite (u8_byte _ (lxor_byte _ _ Hck Hx)).
    specialize (IH (pre ++ [x]) mid post (Z.lxor ck x)).
    rewrite length_app in IH. simpl in IH.
    replace (Z.of_nat (length pre) + 1) with (Z.of_nat (length pre + 1))
      by lia.
    rewrite <- (assoc_L (++)) in IH. simpl in IH.
    rewrite IH; [|assumption|assumption|by apply lxor_byte|lia].
    rewrite Z.lxor_assoc.
    by replace (length pre + 1 + n)%nat with (length pre + S n)%nat by lia.
Qed.

Lemma frame_size_value L : is_byte L -> s64 (u32 (u32 L + 2)) = L + 2.
Proof.
  unfold is_byte. intros HL. rewrite (u32_small L) by lia.
  rewrite u32_small by lia. unfold s64, u64.
  rewrite Z.mod_small by lia.
  destruct (Z.ltb_spec (L + 2) (2 ^ 63)); lia.
Qed.

(** What [verify_message] returns on a length byte, that many payload
    bytes and one more byte. *)
Lemma verify_message_frame (L c : Z) (payload rest : list Z) :
  is_byte L -> Z.of_nat (length payload) = L -> bytes payload ->
  verify_message (L :: payload ++ c :: rest) =
  Some (if decide (c ≠ xor_all payload) then -1 else L + 2).
Proof.
  intros HL Hlen Hp. unfold verify_message. simpl.
  rewrite (u8_byte L HL).
  pose proof (verify_loop_spec (Z.to_nat L) [L] payload (c :: rest) 0) as H.
  change (Z.of_nat (length [L])) with 1 in H.
  simpl in H. rewrite H; [|lia|assumption|unfold is_byte; lia|
                           unfold is_byte in HL; lia].
  simpl. rewrite Z.lxor_0_l.
  replace (Z.of_nat (S (Z.to_nat L))) with (Z.of_nat (length (L :: payload)))
    by (simpl; lia).
  rewrite (load_middle (L :: payload) rest c) by reflexivity. simpl.
  rewrite (frame_size_value L HL). by case_decide.
Qed.

End Loops.

Section Generate.

(** A call [generate_message(buf, buflen)] from the seed [seed], with a
    buffer length for which the divisor [buflen - 2] is positive. *)
Variables (seed buflen : Z).
Hypothesis buflen_lower : 2 < buflen.

Lemma chosen_length_range : 0 <= chosen_length seed buflen < buflen - 2.
Proof. unfold chosen_length. apply Z.mod_pos_bound. lia. Qed.

Lemma chosen_payload_length :
  Z.of_nat (length (chosen_payload seed buflen).1) = chosen_length seed buflen.
Proof.
  unfold chosen_payload. rewrite random_payload_length.
  pose proof chosen_length_range. lia.
Qed.

Lemma message_length :
  Z.of_nat (length (message seed buflen)) = chosen_length seed buflen + 2.
Proof.
  unfold message, frame. simpl. rewrite length_app. simpl.
  pose proof chosen_payload_length. lia.
Qed.

(** With a length byte that fits ([buflen <= 258]) and a buffer that is long
    enough, [generate_message] overwrites the head of the buffer with the
    message drawn from the seed and leaves the rest of the buffer as it
    was. *)
Lemma generate_message_spec (buf : list Z) :
  buflen <= 258 -> buflen - 1 <= Z.of_nat (length buf) ->
  generate_message seed buf buflen =
  Some ((chosen_payload seed buflen).2,
        message seed buflen ++ drop (length (message seed buflen)) buf,
        chosen_length seed buflen + 2).
Proof.
  intros Hb Hlen.
  pose proof chosen_length_range as Hrange.
  pose proof chosen_payload_length as Hpl.
  pose proof message_length as Hml.
  unfold message, frame, chosen_payload, chosen_length in *.
  unfold generate_message.
  assert (u64 (buflen - 2) = buflen - 2) as ->
    by (unfold u64; apply Z.mod_small; lia).
  rewrite decide_False by lia.
  destruct (fast_random seed) as [r seed1]. simpl in *.
  set (len := r mod (buflen - 2)) in *.
  rewrite (u32_small len) by lia.
  set (n := Z.to_nat len) in *.
  destruct buf as [|b0 tl]; [simpl in Hlen; lia|]. simpl in Hlen.
  assert (n < length tl)%nat as Hn by lia.
  destruct (lookup_lt_is_Some_2 tl n Hn) as [c Hc].
  rewrite <- (take_drop_middle tl n c Hc) at 1.
  pose proof (generate_loop_spec n seed1 [b0] (take n tl)
                (c :: drop (S n) tl) 0) as H.
  change (Z.of_nat (length [b0])) with 1 in H. simpl in H.
  rewrite length_take_le in H by lia.
  assert (bytes_0 : is_byte 0) by (unfold is_byte; lia).
  specialize (H ltac:(reflexivity) bytes_0 ltac:(lia)).
  simpl. rewrite H. clear H. simpl.
  pose proof (random_payload_length n seed1) as Hpn.
  destruct (random_payload n seed1) as [p seed2]. simpl in *.
  rewrite (store_middle (b0 :: p) (drop (S n) tl) c) by (simpl; lia).
  simpl. unfold store. simpl. rewrite Z.lxor_0_l.
  rewrite (u8_byte len) by (unfold is_byte; lia).
  rewrite u32_small by lia.
  rewrite <- (assoc_L (++)). simpl.
  rewrite length_app, Hpn. simpl.
  replace (n + 1)%nat with (S n) by lia.
  by replace (Z.of_nat (S n) + 1) with (len + 2) by lia.
Qed.

End Generate.

(** * The codec claims *)

Lemma frame_app (L : Z) (payload rest : list Z) :
  frame L payload ++ rest = L :: payload ++ xor_all payload :: rest.
Proof. unfold frame. simpl. by rewrite <- (assoc_L (++)). Qed.

Lemma verify_message_valid (L : Z) (payload rest : list Z) :
  is_byte L -> Z.of_nat (length payload) = L -> bytes payload ->
  verify_message (frame L payload ++ rest) = Some (L + 2).
Proof.
  intros HL Hlen Hp. rewrite frame_app, verify_message_frame by assumption.
  by rewrite decide_False by (intros H; by apply H).
Qed.

Lemma message_is_frame seed buflen :
  2 < buflen <= 258 -> is_frame (message seed buflen).
Proof.
  intros Hb. exists (chosen_length seed buflen), (chosen_payload seed buflen).1.
  pose proof (chosen_length_range seed buflen ltac:(lia)).
  repeat split; try (unfold is_byte; lia).
  - apply chosen_payload_length. lia.
  - apply random_payload_bytes.
Qed.

(** C1. Round trip: [verify_message] returns [L + 2] on every buffer that
    starts with a well-formed frame of payload length [L]; and for every seed
    and every [buflen] from 3 to 256, [verify_message] on the buffer written
    by [generate_message] returns what [generate_message] returned. *)
Theorem round_trip :
  (forall (L : Z) (payload rest : list Z),
      is_byte L -> Z.of_nat (length payload) = L -> bytes payload ->
      verify_message (frame L payload ++ rest) = Some (L + 2)) /\
  (forall (seed : Z) (buf : list Z) (buflen : Z),
      3 <= buflen <= 256 -> buflen - 1 <= Z.of_nat (length buf) ->
      exists seed' buf' ret,
        generate_message seed buf buflen = Some (seed', buf', ret) /\
        verify_message buf' = Some ret).
Proof.
  split; [exact verify_message_valid|].
  intros seed buf buflen Hb Hlen.
  eexists _, _, _. split.
  - apply generate_message_spec; lia.
  - unfold message. apply verify_message_valid.
    + pose proof (chosen_length_range seed buflen ltac:(lia)).
      unfold is_byte. lia.
    + apply chosen_payload_length. lia.
    + apply random_payload_bytes.
Qed.

Lemma round_trip_witness :
  verify_message (frame 2 [65; 66] ++ [7]) = Some (2 + 2) /\
  exists seed' buf' ret,
    generate_message 5381 (replicate 256 0) 255 = Some (seed', buf', ret) /\
    verify_message buf' = Some ret.
Proof.
  split.
  - apply (proj1 round_trip).
    + unfold is_byte. lia.
    + reflexivity.
    + repeat constructor; unfold is_byte; lia.
  - apply (proj2 round_trip).
    + lia.
    + rewrite length_replicate. lia.
Defined.

(** C2. Corruption detection: on a buffer holding a length byte [L], [L]
    payload bytes and one more byte [c], [verify_message] returns -1 exactly
    when [c] differs from the exclusive-or of the payload; hence overwriting
    one payload byte of a well-formed frame (payload length at least 1) with
    a different byte makes [verify_message] return -1. *)
Theorem corruption_detection :
  (forall (L c : Z) (payload rest : list Z),
      is_byte L -> Z.of_nat (length payload) = L -> bytes payload ->
      (verify_message (L :: payload ++ c :: rest) = Some (-1)
       <-> c ≠ xor_all payload)) /\
  (forall (L : Z) (payload rest : list Z) (j v : Z),
      is_byte L -> Z.of_nat (length payload) = L -> bytes payload ->
      1 <= L -> 1 <= j <= L -> is_byte v ->
      load (frame L payload ++ rest) j ≠ Some v ->
      exists buf',
        store (frame L payload ++ rest) j v = Some buf' /\
        verify_message buf' = Some (-1)).
Proof.
  split.
  - intros L c payload rest HL Hlen Hp.
    rewrite verify_message_frame by assumption.
    unfold is_byte in HL. case_decide; split; intros H'; try done.
    injection H' as H'. lia.
  - intros L payload rest j v HL Hlen Hp HL1 Hj Hv Hne.
    rewrite frame_app in *.
    assert (Z.to_nat j - 1 < length payload)%nat as Hlt by lia.
    destruct (lookup_lt_is_Some_2 payload _ Hlt) as [b Hb].
    assert (v ≠ b) as Hvb.
    { intros ->. apply Hne. unfold load.
      rewrite lookup_cons_ne_0 by lia. rewrite lookup_app_l by lia.
      by replace (Init.Nat.pred (Z.to_nat j)) with (Z.to_nat j - 1)%nat by lia. }
    exists (L :: <[(Z.to_nat j - 1)%nat := v]> payload
              ++ xor_all payload :: rest).
    split.
    + unfold store. rewrite decide_True
        by (simpl; rewrite length_app; simpl; lia).
      f_equal. destruct (Z.to_nat j) as [|k] eqn:Ek; [lia|]. simpl.
      rewrite Nat.sub_0_r. f_equal. apply insert_app_l. lia.
    + rewrite verify_message_frame.
      * rewrite decide_True; [done|].
        intros Heq. by apply (xor_all_insert_ne payload _ b v Hb Hvb).
      * assumption.
      * by rewrite length_insert.
      * apply Forall_insert; assumption.
Qed.

Lemma corruption_detection_witness :
  (verify_message (2 :: [65; 66] ++ 9 :: []) = Some (-1)
   <-> 9 ≠ xor_all [65; 66]) /\
  exists buf',
    store (frame 2 [65; 66] ++ []) 1 97 = Some buf' /\
    verify_message buf' = Some (-1).
Proof.
  assert (is_byte 2) as H2 by (unfold is_byte; lia).
  assert (bytes [65; 66]) as Hp by (repeat constructor; unfold is_byte; lia).
  split.
  - apply (proj1 corruption_detection); [exact H2 | reflexivity | exact Hp].
  - apply (proj2 corruption_detection);
      [exact H2 | reflexivity | exact Hp | lia | lia | unfold is_byte; lia |].
    vm_compute. discriminate.
Defined.

(** C3. Postcondition of [generate_message]: for every seed and every
    [buflen] from 3 to 256, the call draws a payload length [len] in
    [[0, buflen - 2)], writes [len] to [buf[0]], [len] payload bytes between
    '!' (33) and '}' (125) drawn from the generator to [buf[1..len]] and their
    exclusive-or to [buf[len + 1]], leaves every byte past [len + 1] as it
    was, and returns [len + 2]. *)
Theorem generate_postcondition (seed : Z) (buf : list Z) (buflen : Z) :
  3 <= buflen <= 256 -> buflen - 1 <= Z.of_nat (length buf) ->
  exists seed' buf' len,
    generate_message seed buf buflen = Some (seed', buf', len + 2) /\
    len = chosen_length seed buflen /\
    0 <= len < buflen - 2 /\
    load buf' 0 = Some len /\
    take (Z.to_nat len) (drop 1 buf') = (chosen_payload seed buflen).1 /\
    (forall j, 1 <= j <= len ->
       exists b, load buf' j = Some b /\ 33 <= b < 126) /\
    load buf' (len + 1) = Some (xor_all (take (Z.to_nat len) (drop 1 buf'))) /\
    (forall j, len + 1 < j -> load buf' j = load buf j) /\
    length buf' = length buf.
Proof.
  intros Hb Hlen.
  pose proof (chosen_length_range seed buflen ltac:(lia)) as Hrange.
  pose proof (chosen_payload_length seed buflen ltac:(lia)) as Hpl.
  pose proof (message_length seed buflen ltac:(lia)) as Hml.
  pose proof (random_payload_printable
                (Z.to_nat (chosen_length seed buflen)) (fast_random seed).2)
    as Hprint.
  fold (chosen_payload seed buflen) in Hprint.
  eexists _, _, _. split; [apply generate_message_spec; lia|].
  set (len := chosen_length seed buflen) in *.
  set (p := (chosen_payload seed buflen).1) in *.
  assert (message seed buflen = len :: p ++ [xor_all p]) as Hm by reflexivity.
  assert (length p = Z.to_nat len) as Hp by lia.
  assert (take (Z.to_nat len)
            (drop 1 (message seed buflen
                       ++ drop (length (message seed buflen)) buf)) = p) as Ht.
  { rewrite Hm. simpl. rewrite drop_0, <- (assoc_L (++)).
    by apply take_app_length'. }
  split; [reflexivity|]. split; [lia|].
  split; [by rewrite Hm|]. split; [exact Ht|].
  split; [|split; [|split]].
  - intros j Hj. unfold load. rewrite Hm. simpl.
    rewrite lookup_cons_ne_0 by lia.
    rewrite <- (assoc_L (++)), lookup_app_l by lia.
    assert (Init.Nat.pred (Z.to_nat j) < length p)%nat as Hlt by lia.
    destruct (lookup_lt_is_Some_2 p _ Hlt) as [b Hb'].
    exists b. split; [exact Hb'|].
    exact (proj1 (Forall_lookup _ p) Hprint _ _ Hb').
  - rewrite Ht. unfold load. rewrite Hm. simpl.
    rewrite lookup_cons_ne_0 by lia.
    rewrite <- (assoc_L (++)). simpl. apply list_lookup_middle. lia.
  - intros j Hj. unfold load.
    rewrite lookup_app_r by lia. rewrite lookup_drop. f_equal. lia.
  - rewrite length_app, length_drop. lia.
Qed.

Lemma generate_postcondition_witness :
  exists seed' buf' len,
    generate_message 5381 (replicate 256 0) 255 = Some (seed', buf', len + 2) /\
    len = chosen_length 5381 255 /\
    0 <= len < 255 - 2 /\
    load buf' 0 = Some len /\
    take (Z.to_nat len) (drop 1 buf') = (chosen_payload 5381 255).1 /\
    (forall j, 1 <= j <= len ->
       exists b, load buf' j = Some b /\ 33 <= b < 126) /\
    load buf' (len + 1) = Some (xor_all (take (Z.to_nat len) (drop 1 buf'))) /\
    (forall j, len + 1 < j -> load buf' j = load (replicate 256 0) j) /\
    length buf' = length (replicate 256 0 : list Z).
Proof.
  apply (generate_postcondition 5381 (replicate 256 0) 255).
  - lia.
  - rewrite length_replicate. lia.
Defined.

(** C9. Zero-length frame: when the payload length drawn is 0,
    [generate_message] writes the two bytes 0x00 0x00 (the length byte and
    the exclusive-or of no bytes), touches nothing else and returns 2, and
    [verify_message] on the result returns 2. *)
Theorem zero_length_frame (seed : Z) (buf : list Z) (buflen : Z) :
  u64 (buflen - 2) ≠ 0 ->
  u32 ((fast_random seed).1 mod u64 (buflen - 2)) = 0 ->
  (2 <= length buf)%nat ->
  exists buf',
    generate_message seed buf buflen = Some ((fast_random seed).2, buf', 2) /\
    buf' = [0; 0] ++ drop 2 buf /\
    verify_message buf' = Some 2.
Proof.
  intros Hm Hlen Hbuf. exists ([0; 0] ++ drop 2 buf).
  split; [|split; [reflexivity|]].
  - unfold generate_message. rewrite decide_False by assumption.
    destruct (fast_random seed) as [r seed1]. simpl in *.
    rewrite Hlen. simpl.
    destruct buf as [|b0 [|b1 tl]]; simpl in Hbuf; try lia.
    reflexivity.
  - apply (verify_message_valid 0 [] (drop 2 buf)).
    + unfold is_byte. lia.
    + reflexivity.
    + constructor.
Qed.

Lemma zero_length_frame_witness :
  exists buf',
    generate_message 0 (replicate 256 90) 255 =
      Some ((fast_random 0).2, buf', 2) /\
    buf' = [0; 0] ++ drop 2 (replicate 256 90) /\
    verify_message buf' = Some 2.
Proof.
  apply (zero_length_frame 0 (replicate 256 90) 255).
  - vm_compute. discriminate.
  - vm_compute. reflexivity.
  - rewrite length_replicate. lia.
Defined.

(** * Runs of the process *)

Section Runs.

(** The number of threads [run_test] starts. *)
Variable nworkers : nat.

Lemma run_snoc s acts a : run s (acts ++ [a]) = sys_step (run s acts) a.
Proof. unfold run. by rewrite foldl_app. Qed.

(** The three ways a scheduling decision acts on the process. *)
Lemma sys_step_cases s a :
  sys_step s a = s \/
  sys_step s a = System (workers s) (Shared (rbuf (mem s)) true) (trace s) \/
  exists tid o w w' sh' ev,
    a = Run tid o /\ workers s !! tid = Some w /\
    worker_step o (mem s) w = (w', sh', ev) /\
    sys_step s a =
      System (<[tid := w']> (workers s)) sh'
        (trace s ++ (pair tid <$> option_list ev)).
Proof.
  unfold sys_step. destruct (crashed s); [by left|].
  destruct a as [|tid o]; [by right; left|].
  destruct (workers s !! tid) as [w|] eqn:Hw; [|by left].
  destruct (worker_step o (mem s) w) as [[w' sh'] ev] eqn:Hstep.
  right; right. by exists tid, o, w, w', sh', ev.
Qed.

Lemma events_of_app tid tr1 tr2 :
  events_of tid (tr1 ++ tr2) = events_of tid tr1 ++ events_of tid tr2.
Proof. unfold events_of. apply omap_app. Qed.

Lemma events_of_same tid (ev : option event) :
  events_of tid (pair tid <$> option_list ev) = option_list ev.
Proof.
  destruct ev as [e|]; [|reflexivity]. unfold events_of. simpl.
  by rewrite decide_True.
Qed.

Lemma events_of_other tid tid' (ev : option event) :
  tid' ≠ tid -> events_of tid (pair tid' <$> option_list ev) = [].
Proof.
  intros Hne. destruct ev as [e|]; [|reflexivity]. unfold events_of. simpl.
  by rewrite decide_False.
Qed.

Lemma events_of_Forall (P : event -> Prop) tid tr :
  Forall (fun te => P te.2) tr -> Forall P (events_of tid tr).
Proof.
  induction 1 as [|[t e] tr He _ IH]; [constructor|].
  unfold events_of in *. simpl. case_decide; simpl; [|exact IH].
  constructor; assumption.
Qed.

Lemma spawned tid w :
  workers (run_test nworkers) !! tid = Some w -> w = spawn tid.
Proof.
  simpl. rewrite list_lookup_fmap. intros H.
  destruct (seq 0 nworkers !! tid) as [i|] eqn:Hi; [|discriminate].
  apply lookup_seq in Hi as [-> _]. simpl in H. congruence.
Qed.

(** A property of every state of every run. *)
Lemma run_invariant (P : system -> Prop) (s0 : system) :
  P s0 -> (forall s a, P s -> P (sys_step s a)) ->
  forall acts, P (run s0 acts).
Proof.
  intros H0 Hstep acts. induction acts as [|a acts IH] using rev_ind.
  - exact H0.
  - rewrite run_snoc. by apply Hstep.
Qed.

(** A property that relates each thread to its own calls so far, kept by
    every step of a worker, holds of every thread in every run. *)
Lemma thread_invariant (Q : worker -> list event -> Prop) :
  (forall i, Q (spawn i) []) ->
  (forall o sh w es w' sh' ev,
      worker_step o sh w = (w', sh', ev) ->
      Q w es -> Q w' (es ++ option_list ev)) ->
  forall acts tid w,
    workers (run (run_test nworkers) acts) !! tid = Some w ->
    Q w (events_of tid (trace (run (run_test nworkers) acts))).
Proof.
  intros Hinit Hkeep acts. apply (run_invariant (fun s =>
    forall tid w, workers s !! tid = Some w ->
                  Q w (events_of tid (trace s)))).
  - intros tid w Hw. apply spawned in Hw as ->. apply Hinit.
  - intros s a IH tid w.
    destruct (sys_step_cases s a)
      as [-> | [-> | (tid' & o & w0 & w' & sh' & ev & _ & Hw0 & Hstep & ->)]];
      simpl; [apply IH | apply IH |].
    rewrite events_of_app. destruct (decide (tid' = tid)) as [->|Hne].
    + rewrite list_lookup_insert_eq by (eapply lookup_lt_Some; eassumption).
      intros [= <-]. rewrite events_of_same.
      eapply Hkeep; [eassumption|]. by apply IH.
    + rewrite list_lookup_insert_ne by assumption.
      rewrite events_of_other, (right_id_L [] (++)) by assumption.
      apply IH.
Qed.

End Runs.

(** * The worker loop claims *)

(** Case analysis on one step of a worker. *)
Ltac step_cases H :=
  unfold worker_step in H;
  repeat (case_match || case_decide);
  simplify_eq; simpl in *.




Lemma s64_small x : 0 <= x < 2 ^ 63 -> s64 x = x.
Proof.
  intros H. unfold s64, u64. rewrite Z.mod_small by lia.
  destruct (Z.ltb_spec x (2 ^ 63)); lia.
Qed.

Lemma s64_big x : 2 ^ 63 <= x < 2 ^ 64 -> s64 x < 0.
Proof.
  intros H. unfold s64, u64. rewrite Z.mod_small by lia.
  destruct (Z.ltb_spec x (2 ^ 63)); lia.
Qed.

Lemma u64_small x : 0 <= x < 2 ^ 64 -> u64 x = x.
Proof. intros. unfold u64. by apply Z.mod_small. Qed.

Lemma u64_range x : 0 <= u64 x < 2 ^ 64.
Proof. unfold u64. apply Z.mod_pos_bound. lia. Qed.


(** The decoding loop ends: it reaches the release call, or the process
    dies. *)
Lemma decode_progress o sh (n : nat) : forall w,
  w_pc w = Decode -> 0 <= w_rem w <= Z.of_nat n -> w_rem w < 2 ^ 64 ->
  exists k w' evs,
    (k <= n + 2)%nat /\
    solo (replicate k o) sh w = (w', sh, evs) /\
    (dead w' = true \/
     w_pc w' = Loop /\ last evs = Some (EvRelease (w_len w))).
Proof.
  induction n as [|n IH]; intros w Hpc Hrem Hmax;
    destruct w as [i sd p b l f rm t]; simpl in *; subst p.
  - exists 2%nat. eexists _, _. split; [lia|].
    unfold solo, worker_step. simpl.
    rewrite decide_False by lia. simpl. split; [reflexivity|by right].
  - destruct (decide (rm = 0)) as [->|Hnz].
    { exists 2%nat. eexists _, _. split; [lia|].
      unfold solo, worker_step. simpl. split; [reflexivity|by right]. }
    destruct (verify_message (drop (Z.to_nat f) (rbuf sh))) as [ret|] eqn:Hv.
    2:{ exists 1%nat. eexists _, _. split; [lia|].
        unfold solo, worker_step. simpl. rewrite decide_True by assumption.
        rewrite Hv. split; [reflexivity|by left]. }
    destruct (decide (ret > 0)) as [Hpos|Hneg].
    2:{ exists 1%nat. eexists _, _. split; [lia|].
        unfold solo, worker_step. simpl. rewrite decide_True by assumption.
        rewrite Hv, (decide_False (P := ret > 0)) by assumption.
        split; [reflexivity|by left]. }
    destruct (decide (ret <= s64 rm)) as [Hle|Hgt].
    2:{ exists 1%nat. eexists _, _. split; [lia|].
        unfold solo, worker_step. simpl. rewrite decide_True by assumption.
        rewrite Hv, (decide_True (P := ret > 0)) by assumption.
        rewrite (decide_False (P := ret <= s64 rm)) by assumption.
        split; [reflexivity|by left]. }
    assert (rm < 2 ^ 63) as Hsmall.
    { destruct (decide (rm < 2 ^ 63)); [assumption|].
      pose proof (s64_big rm ltac:(lia)). lia. }
    rewrite s64_small in Hle by lia.
    destruct (IH (Worker i sd Decode b l (u64 (f + ret)) (u64 (rm - ret)) ret))
      as (k & w' & evs & Hk & Hsolo & Hend); simpl.
    + reflexivity.
    + rewrite u64_small by lia. lia.
    + apply u64_range.
    + exists (S k), w'. eexists. split; [lia|]. simpl.
      unfold worker_step at 1. simpl. rewrite decide_True by assumption.
      rewrite Hv, (decide_True (P := ret > 0)) by assumption.
      rewrite s64_small by lia.
      rewrite (decide_True (P := ret <= rm)) by assumption.
      unfold set_cursor. simpl. rewrite Hsolo. split; [reflexivity|].
      destruct Hend as [Hd|[Hl Hlast]]; [by left|right].
      split; [assumption|]. simpl. rewrite last_cons. simpl in Hlast.
      by rewrite Hlast.
Qed.





(** * The generator across threads *)

Lemma generated_app es1 es2 :
  generated (es1 ++ es2) = generated es1 ++ generated es2.
Proof. unfold generated. apply omap_app. Qed.

Lemma BUF_SIZE_value : BUF_SIZE = 256.
Proof. reflexivity. Qed.

(** A step either leaves the seed and the private buffer alone and generates
    nothing, or it is the call of [generate_message]. *)
Lemma worker_step_generate o sh w w' sh' ev :
  worker_step o sh w = (w', sh', ev) ->
  (w_seed w' = w_seed w /\ w_buf w' = w_buf w /\
   generated (option_list ev) = []) \/
  (exists len,
      generate_message (w_seed w) (w_buf w) (BUF_SIZE - 1)
        = Some (w_seed w', w_buf w', len) /\
      ev = Some (EvGenerate (take (Z.to_nat len) (w_buf w')))).
Proof.
  intros Hstep. destruct w as [i sd p b l f r t]. simpl in *.
  destruct p; step_cases Hstep; try (by left).
  right. eexists. split; [eassumption|reflexivity].
Qed.

Lemma stream_step o sh w es w' sh' ev :
  worker_step o sh w = (w', sh', ev) ->
  length (w_buf w) = Z.to_nat BUF_SIZE /\
  generated es = nth_message <$> seq 0 (length (generated es)) /\
  w_seed w = nth_seed (length (generated es)) ->
  length (w_buf w') = Z.to_nat BUF_SIZE /\
  generated (es ++ option_list ev)
    = nth_message <$> seq 0 (length (generated (es ++ option_list ev))) /\
  w_seed w' = nth_seed (length (generated (es ++ option_list ev))).
Proof.
  intros Hstep (Hbuf & Hgen & Hseed). rewrite generated_app.
  destruct (worker_step_generate _ _ _ _ _ _ Hstep)
    as [(Hs & Hb & ->) | (len & Hg & ->)].
  - rewrite (right_id_L [] (++)), Hs, Hb. done.
  - rewrite BUF_SIZE_value in *.
    pose proof (generate_message_spec (w_seed w) (256 - 1) ltac:(lia)
                  (w_buf w) ltac:(lia) ltac:(lia)) as Hspec.
    pose proof (message_length (w_seed w) (256 - 1) ltac:(lia)) as Hml.
    remember (message (w_seed w) (256 - 1)) as m eqn:Hm.
    rewrite Hg in Hspec.
    assert (w_seed w' = (chosen_payload (w_seed w) (256 - 1)).2) as Hs
      by congruence.
    assert (w_buf w' = m ++ drop (length m) (w_buf w)) as Hb by congruence.
    assert (len = chosen_length (w_seed w) (256 - 1) + 2) as Hl by congruence.
    clear Hspec Hg.
    simpl. rewrite length_app. simpl.
    set (k := length (generated es)) in *.
    replace (k + 1)%nat with (S k) by lia.
    rewrite seq_S, fmap_app. simpl.
    assert (take (Z.to_nat len) (w_buf w') = nth_message k) as ->.
    { unfold nth_message. rewrite BUF_SIZE_value, <- Hseed, <- Hm, Hb.
      apply take_app_length'. lia. }
    split; [|split].
    + rewrite Hb, length_app, length_drop.
      pose proof (chosen_length_range (w_seed w) (256 - 1) ltac:(lia)). lia.
    + by rewrite <- Hgen.
    + rewrite Hs. unfold nth_seed. simpl. fold (nth_seed k).
      rewrite <- Hseed. unfold next_seed. by rewrite BUF_SIZE_value.
Qed.

(** C10. Identical sequences in all threads: [fast_random] is a function of
    the seed alone, every thread starts from the seed 5381, and in every run
    the messages a thread has generated are the first messages of one fixed
    sequence, its seed being the seed of that sequence at the same position;
    so the [k]-th message is the same in any two threads. *)
Theorem identical_sequences :
  (forall s1 s2, s1 = s2 -> fast_random s1 = fast_random s2) /\
  (forall i, w_seed (spawn i) = 5381) /\
  (forall n acts tid w,
      workers (run (run_test n) acts) !! tid = Some w ->
      let ms := generated (events_of tid (trace (run (run_test n) acts))) in
      ms = nth_message <$> seq 0 (length ms) /\
      w_seed w = nth_seed (length ms)) /\
  (forall n acts tid1 tid2 k m1 m2,
      is_Some (workers (run (run_test n) acts) !! tid1) ->
      is_Some (workers (run (run_test n) acts) !! tid2) ->
      generated (events_of tid1 (trace (run (run_test n) acts))) !! k
        = Some m1 ->
      generated (events_of tid2 (trace (run (run_test n) acts))) !! k
        = Some m2 ->
      m1 = m2).
Proof.
  assert (forall n acts tid w,
      workers (run (run_test n) acts) !! tid = Some w ->
      let ms := generated (events_of tid (trace (run (run_test n) acts))) in
      ms = nth_message <$> seq 0 (length ms) /\
      w_seed w = nth_seed (length ms)) as Hstream.
  { intros n acts tid w Hw.
    refine (proj2 (thread_invariant n (fun w es =>
      length (w_buf w) = Z.to_nat BUF_SIZE /\
      generated es = nth_message <$> seq 0 (length (generated es)) /\
      w_seed w = nth_seed (length (generated es))) _ _ acts tid w Hw)).
    - intros i. split; [|by split]. reflexivity.
    - intros o sh w0 es w' sh' ev. apply stream_step. }
  split; [by intros s1 s2 ->|]. split; [reflexivity|].
  split; [exact Hstream|].
  intros n acts tid1 tid2 k m1 m2 [w1 Hw1] [w2 Hw2] Hm1 Hm2.
  destruct (Hstream n acts tid1 w1 Hw1) as [H1 _].
  destruct (Hstream n acts tid2 w2 Hw2) as [H2 _].
  rewrite H1 in Hm1. rewrite H2 in Hm2.
  rewrite list_lookup_fmap in Hm1, Hm2.
  destruct (seq 0 _ !! k) as [j1|] eqn:E1 in Hm1; [|discriminate].
  destruct (seq 0 _ !! k) as [j2|] eqn:E2 in Hm2; [|discriminate].
  apply lookup_seq in E1 as [-> _]. apply lookup_seq in E2 as [-> _].
  simpl in *. congruence.
Qed.

Lemma identical_sequences_witness :
  let o := Oracle 0 0 0 in
  let acts := [Run 1 o; Run 2 o; Run 1 o; Run 2 o; Run 1 o; Run 2 o]%nat in
  let s := run (run_test 3) acts in
  fast_random 5381 = fast_random 5381 /\
  (exists w,
      workers s !! 1%nat = Some w /\
      generated (events_of 1 (trace s))
        = nth_message <$> seq 0 (length (generated (events_of 1 (trace s)))) /\
      w_seed w = nth_seed (length (generated (events_of 1 (trace s))))) /\
  (exists m1 m2,
      generated (events_of 1 (trace s)) !! 0%nat = Some m1 /\
      generated (events_of 2 (trace s)) !! 0%nat = Some m2 /\
      m1 = m2).
Proof.
  intros o acts s.
  destruct identical_sequences as (H1 & _ & H3 & H4).
  split; [apply H1; reflexivity|]. split.
  - eexists. split; [vm_compute; reflexivity|].
    apply (H3 3%nat acts 1%nat). vm_compute. reflexivity.
  - eexists _, _. split; [vm_compute; reflexivity|].
    split; [vm_compute; reflexivity|].
    apply (H4 3%nat acts 1%nat 2%nat 0%nat).
    + vm_compute. eexists. reflexivity.
    + vm_compute. eexists. reflexivity.
    + vm_compute. reflexivity.
    + vm_compute. reflexivity.
Defined.

(** * The guard byte *)

(** A copy that ends at or before [K] leaves the bytes from [K] on alone. *)
Lemma memcpy_above (dst src r : list Z) (off n K : Z) :
  memcpy dst off src n = Some r -> 0 <= off -> off + n <= K ->
  length r = length dst /\
  forall j : nat, (Z.to_nat K <= j)%nat -> r !! j = dst !! j.
Proof.
  unfold memcpy. intros H Hoff HK. repeat case_decide; simplify_eq.
  split.
  - rewrite !length_app, !length_take, length_drop. lia.
  - intros j Hj. destruct (decide (0 <= n)) as [Hn|Hn].
    + rewrite (assoc_L (++)), lookup_app_r
        by (rewrite length_app, !length_take; lia).
      rewrite lookup_drop. f_equal.
      rewrite length_app, !length_take. lia.
    + replace (Z.to_nat n) with 0%nat by lia. simpl.
      by rewrite Nat.add_0_r, take_drop.
Qed.

Lemma guard_step o sh w w' sh' ev :
  worker_step o sh w = (w', sh', ev) ->
  length (rbuf sh) = Z.to_nat (RBUF_SIZE + 1) ->
  load (rbuf sh) RBUF_SIZE = Some MAGIC_BYTE ->
  0 <= w_off w -> w_pc w ≠ Aborted guard_intact ->
  (forall e, ev = Some e -> copy_in_region e) ->
  length (rbuf sh') = Z.to_nat (RBUF_SIZE + 1) /\
  load (rbuf sh') RBUF_SIZE = Some MAGIC_BYTE /\
  0 <= w_off w' /\ w_pc w' ≠ Aborted guard_intact /\
  (forall g, ev = Some (EvObserve g) -> g = MAGIC_BYTE).
Proof.
  intros Hstep Hlen Hguard Hoff Hpc Hcopy.
  destruct w as [i sd p b l f r t]. simpl in *.
  destruct p; step_cases Hstep;
    try (repeat split; try done; try apply u64_range; congruence).
  (* the copy-in *)
  specialize (Hcopy _ eq_refl). simpl in Hcopy.
  match goal with
  | H : memcpy _ _ _ _ = Some _ |- _ =>
      destruct (memcpy_above _ _ _ _ _ RBUF_SIZE H Hoff Hcopy) as [Hl Hj]
  end.
  repeat split; try done; try congruence.
  unfold load in *. rewrite Hj; [assumption | reflexivity].
Qed.

Lemma guard_kept_run n acts :
  Forall (fun te => copy_in_region te.2) (trace (run (run_test n) acts)) ->
  guard_kept (run (run_test n) acts).
Proof.
  apply (run_invariant (fun s =>
    Forall (fun te => copy_in_region te.2) (trace s) -> guard_kept s)).
  - intros _. repeat split; try constructor.
    simpl. apply Forall_fmap, Forall_forall. intros i _. simpl.
    split; [lia|discriminate].
  - intros s a IH.
    destruct (sys_step_cases s a)
      as [-> | [-> | (tid & o & w & w' & sh' & ev & _ & Hw & Hstep & ->)]];
      [exact IH | exact IH |].
    simpl. intros Htr. apply Forall_app in Htr as [Htr Hev].
    destruct (IH Htr) as (Hlen & Hguard & Hws & Hobs).
    pose proof (proj1 (Forall_lookup _ _) Hws _ _ Hw) as [Hoff Hpc].
    destruct (guard_step _ _ _ _ _ _ Hstep Hlen Hguard Hoff Hpc)
      as (Hlen' & Hguard' & Hoff' & Hpc' & Hg).
    { intros e ->. simpl in Hev. apply Forall_inv in Hev. exact Hev. }
    repeat split; simpl; try assumption.
    + apply Forall_insert; [assumption|by split].
    + apply Forall_app. split; [assumption|].
      destruct ev as [e|]; simpl; constructor; [|constructor].
      simpl. intros g ->. by apply Hg.
Qed.

(** C4. Guard byte: [run_test] sets [rbuf[RBUF_SIZE]] to the magic byte, and
    in every run in which each copy-in satisfies [off + len <= RBUF_SIZE] the
    guard byte still holds the magic byte, every value a worker has read from
    it at a loop head is the magic byte, and no worker has failed the guard
    assertion. *)
Theorem guard_invariant :
  (forall n, load (rbuf (mem (run_test n))) RBUF_SIZE = Some MAGIC_BYTE) /\
  (forall n acts,
      Forall (fun te => copy_in_region te.2) (trace (run (run_test n) acts)) ->
      load (rbuf (mem (run (run_test n) acts))) RBUF_SIZE = Some MAGIC_BYTE /\
      (forall tid g,
          (tid, EvObserve g) ∈ trace (run (run_test n) acts) ->
          g = MAGIC_BYTE) /\
      (forall tid w,
          workers (run (run_test n) acts) !! tid = Some w ->
          w_pc w ≠ Aborted guard_intact)).
Proof.
  split; [reflexivity|]. intros n acts Htr.
  destruct (guard_kept_run n acts Htr) as (_ & Hguard & Hws & Hobs).
  split; [exact Hguard|]. split.
  - intros tid g Hin.
    exact (proj1 (Forall_forall _ _) Hobs _ Hin g eq_refl).
  - intros tid w Hw. exact (proj2 (proj1 (Forall_lookup _ _) Hws _ _ Hw)).
Qed.

Lemma guard_invariant_witness :
  let o := Oracle 0 0 0 in
  let acts := [Run 1 o; Run 1 o; Run 1 o; Run 1 (Oracle 0 0 10); Run 1 o;
               Run 1 o; Run 1 o; Run 1 o; Run 1 o]%nat in
  trace (run (run_test 2) acts) !! 3%nat = Some (1%nat, EvCopy 10 92) /\
  load (rbuf (mem (run (run_test 2) acts))) RBUF_SIZE = Some MAGIC_BYTE /\
  (forall tid g,
      (tid, EvObserve g) ∈ trace (run (run_test 2) acts) -> g = MAGIC_BYTE) /\
  (forall tid w,
      workers (run (run_test 2) acts) !! tid = Some w ->
      w_pc w ≠ Aborted guard_intact).
Proof.
  intros o acts. split; [vm_compute; reflexivity|].
  apply (proj2 guard_invariant 2%nat acts).
  vm_compute. repeat constructor. discriminate.
Defined.

(** * Offsets *)

Lemma offsets_step o sh w es w' sh' ev :
  worker_step o sh w = (w', sh', ev) ->
  (Forall offset_contract es -> offsets_ok w es) ->
  Forall offset_contract (es ++ option_list ev) ->
  offsets_ok w' (es ++ option_list ev).
Proof.
  intros Hstep Hq Hall. apply Forall_app in Hall as [Hes Hev].
  destruct (Hq Hes) as (Hc & Hr & Hcp & Ha1 & Ha2 & Hcopies). clear Hq.
  assert (forall e, ev = Some e -> offset_contract e) as Hcontract.
  { intros e ->. simpl in Hev. by apply Forall_inv in Hev. }
  clear Hev. unfold offsets_ok.
  destruct w as [i sd p b l f r t]. simpl in *.
  destruct p; step_cases Hstep;
    rewrite ?(right_id_L [] (++));
    (split; [|split; [|split; [|split; [|split]]]]);
    try done; try (intros; discriminate);
    try (apply Forall_app; split; [assumption|];
         repeat constructor; intros; discriminate).
  - (* a nonzero consume *)
    intros _. pose proof (Hcontract _ eq_refl) as Hk. simpl in Hk.
    by apply Hk.
  - (* the consumer's assertion holds *)
    specialize (Hc eq_refl). lia.
  - (* a successful acquire *)
    intros _. pose proof (Hcontract _ eq_refl) as Hk. simpl in Hk.
    destruct Hk as [?|Hk]; [done|].
    unfold RBUF_SIZE in *. rewrite u64_small by lia. lia.
  - (* the producer's offset *)
    intros _. specialize (Hr eq_refl). lia.
  - (* the producer's assertion holds *)
    specialize (Hr eq_refl). lia.
  - (* the copy-in *)
    apply Forall_app. split; [assumption|].
    apply Forall_singleton. intros off len [= <- <-]. by apply Hcp.
Qed.

Lemma cursor_step o sh w es w' sh' ev :
  worker_step o sh w = (w', sh', ev) ->
  (Forall span_contract es -> cursor_ok w es) ->
  Forall span_contract (es ++ option_list ev) ->
  cursor_ok w' (es ++ option_list ev).
Proof.
  intros Hstep Hq Hall. apply Forall_app in Hall as [Hes Hev].
  destruct (Hq Hes) as (Hc & Hd & Hver). clear Hq.
  assert (forall e, ev = Some e -> span_contract e) as Hcontract.
  { intros e ->. simpl in Hev. by apply Forall_inv in Hev. }
  clear Hev. unfold cursor_ok.
  destruct w as [i sd p b l f r t]. simpl in *.
  destruct p; step_cases Hstep;
    rewrite ?(right_id_L [] (++));
    (split; [|split]);
    try done; try (intros; discriminate);
    try (apply Forall_app; split; [assumption|];
         repeat constructor; intros; discriminate).
  - (* a nonzero consume *)
    intros _. pose proof (Hcontract _ eq_refl) as Hk. simpl in Hk.
    pose proof (u64_range (o_len o)). pose proof (u64_range (o_off o)).
    split; [lia|]. split; [lia|]. by apply Hk.
  - (* the decoding starts *)
    intros _. by apply Hc.
  - (* one frame decoded *)
    intros _. destruct (Hd eq_refl) as (Hf & Hr & Hsum).
    unfold RBUF_SIZE in *.
    match goal with
    | Hle : ?z <= s64 ?r |- _ =>
        assert (z <= r) by (rewrite <- (s64_small r) by lia; exact Hle)
    end.
    rewrite !u64_small by lia. lia.
  - (* the call of verify_message *)
    destruct (Hd eq_refl) as (Hf & Hr & Hsum).
    apply Forall_app. split; [assumption|].
    apply Forall_singleton. intros off ret' [= <- <-]. lia.
  - apply Forall_app. split; [assumption|].
    destruct (Hd eq_refl) as (Hf & Hr & Hsum).
    apply Forall_singleton. intros off ret' [= <- <-]. lia.
  - apply Forall_app. split; [assumption|].
    destruct (Hd eq_refl) as (Hf & Hr & Hsum).
    apply Forall_singleton. intros off ret' [= <- <-]. lia.
Qed.

Lemma claim_start_step o sh w w' sh' ev :
  worker_step o sh w = (w', sh', ev) ->
  claim_start_ok w -> claim_start_ok w'.
Proof.
  intros Hstep [Hc Hd]. unfold claim_start_ok.
  destruct w as [i sd p b l f r t]. simpl in *.
  destruct p; step_cases Hstep; (split; [|]);
    try done; try (intros; discriminate).
  - (* a nonzero consume *)
    intros _. pose proof (u64_range (o_len o)).
    pose proof (u64_range (o_off o)). lia.
  - (* the decoding starts *)
    intros _. destruct (Hc eq_refl) as (Hf & Hl). lia.
  - (* one frame decoded *)
    intros _. destruct (Hd eq_refl) as (Hr & Hl & _).
    match goal with
    | Hle : ?z <= s64 ?r |- _ =>
        assert (r < 2 ^ 63)
          by (destruct (decide (r < 2 ^ 63)); [assumption|];
              pose proof (s64_big r ltac:(lia)); lia);
        assert (z <= r) by (rewrite <- (s64_small r) by lia; exact Hle)
    end.
    rewrite (u64_small (r - _)) by lia. lia.
Qed.

(** C5. Offset bound, as the code keeps it: in every run in which the ring
    buffer keeps its contract (each acquire returns -1 or an offset in
    [[0, RBUF_SIZE)], each nonzero consume an offset in [[0, RBUF_SIZE)]), no
    thread fails one of the two assertions [off < RBUF_SIZE], and the offset
    is in [[0, RBUF_SIZE)] wherever a thread is about to check it; past the
    assertions it is in [[0, RBUF_SIZE)] at every copy-in and where the
    decoding of a claim starts.  The offsets the consumer goes on to inside a
    claim are in [[0, RBUF_SIZE)] as well if moreover every claim ends inside
    the region ([off + len <= RBUF_SIZE]): then every offset at which a
    thread is about to address the region is in [[0, RBUF_SIZE)]. *)
Theorem offset_bound (n : nat) (acts : list action) (tid : nat) (w : worker) :
  Forall (fun te => offset_contract te.2) (trace (run (run_test n) acts)) ->
  workers (run (run_test n) acts) !! tid = Some w ->
  w_pc w ≠ Aborted consume_offset /\
  w_pc w ≠ Aborted acquire_offset /\
  (w_pc w = Claimed -> 0 <= w_off w < RBUF_SIZE) /\
  (w_pc w = Reserved -> 0 <= u64 (w_ret w) < RBUF_SIZE) /\
  (w_pc w = Copy -> 0 <= w_off w < RBUF_SIZE) /\
  (w_pc w = Decode -> w_rem w = w_len w -> 0 <= w_off w < RBUF_SIZE) /\
  (forall off len,
      EvCopy off len ∈ events_of tid (trace (run (run_test n) acts)) ->
      0 <= off < RBUF_SIZE) /\
  (Forall (fun te => span_contract te.2) (trace (run (run_test n) acts)) ->
   forall off, addresses w = Some off -> 0 <= off < RBUF_SIZE).
Proof.
  intros Htr Hw.
  assert (offsets_ok w (events_of tid (trace (run (run_test n) acts))))
    as (Hc & Hr & Hcp & Ha1 & Ha2 & Hcopies).
  { revert Htr. intros Htr%(events_of_Forall offset_contract tid). revert Htr.
    revert Hw. apply (thread_invariant n
      (fun w es => Forall offset_contract es -> offsets_ok w es)).
    - intros i _. unfold offsets_ok. simpl.
      repeat split; try discriminate. constructor.
    - intros o sh w0 es w' sh' ev Hstep Hq Hall.
      eapply offsets_step; eassumption. }
  assert (claim_start_ok w) as (_ & Hstart).
  { revert Hw. apply (thread_invariant n (fun w _ => claim_start_ok w)).
    - intros i. unfold claim_start_ok. simpl. split; discriminate.
    - intros o sh w0 es w' sh' ev Hstep Hq.
      eapply claim_start_step; eassumption. }
  split; [assumption|]. split; [assumption|].
  split; [assumption|]. split; [assumption|]. split; [assumption|].
  split; [|split].
  - intros Hpc Hrem. by apply Hstart.
  - intros off len Hin.
    eapply (proj1 (Forall_forall _ _) Hcopies); eauto.
  - intros Hspan%(events_of_Forall span_contract tid) off Haddr.
    assert (cursor_ok w (events_of tid (trace (run (run_test n) acts))))
      as (_ & Hcur & _).
    { revert Hspan. revert Hw. apply (thread_invariant n
        (fun w es => Forall span_contract es -> cursor_ok w es)).
      - intros i _. unfold cursor_ok. simpl.
        repeat split; try discriminate. constructor.
      - intros o sh w0 es w' sh' ev Hstep Hq Hall.
        eapply cursor_step; eassumption. }
    unfold addresses in Haddr.
    destruct (w_pc w) eqn:Hpc; try discriminate.
    + case_decide as Hrem; [|discriminate].
      injection Haddr as <-. destruct (Hcur eq_refl) as (Hf & Hr' & Hsum). lia.
    + injection Haddr as <-. by apply Hcp.
Qed.

Lemma offset_bound_witness :
  let o := Oracle 0 0 0 in
  (* the producer about to copy its first message in at offset 10 *)
  let acts1 := [Run 1 o; Run 1 o; Run 1 o; Run 1 (Oracle 0 0 10);
                Run 1 o]%nat in
  (* the consumer inside a claim of that message and of the one after it,
     about to decode the second *)
  let acts0 := [Run 1 o; Run 1 o; Run 1 o; Run 1 (Oracle 0 0 10); Run 1 o;
                Run 1 o; Run 1 o; Run 1 o; Run 1 o; Run 1 o;
                Run 1 (Oracle 0 0 102); Run 1 o; Run 1 o; Run 1 o;
                Run 0 o; Run 0 o; Run 0 (Oracle 342 10 0); Run 0 o;
                Run 0 o]%nat in
  (exists w,
      workers (run (run_test 2) acts1) !! 1%nat = Some w /\
      addresses w = Some 10 /\
      w_pc w ≠ Aborted consume_offset /\
      w_pc w ≠ Aborted acquire_offset /\
      (w_pc w = Claimed -> 0 <= w_off w < RBUF_SIZE) /\
      (w_pc w = Reserved -> 0 <= u64 (w_ret w) < RBUF_SIZE) /\
      (w_pc w = Copy -> 0 <= w_off w < RBUF_SIZE) /\
      (w_pc w = Decode -> w_rem w = w_len w -> 0 <= w_off w < RBUF_SIZE) /\
      (forall off len,
          EvCopy off len ∈ events_of 1 (trace (run (run_test 2) acts1)) ->
          0 <= off < RBUF_SIZE) /\
      (Forall (fun te => span_contract te.2)
         (trace (run (run_test 2) acts1)) ->
       forall off, addresses w = Some off -> 0 <= off < RBUF_SIZE)) /\
  (exists w,
      workers (run (run_test 2) acts0) !! 0%nat = Some w /\
      addresses w = Some 102 /\
      Forall (fun te => span_contract te.2) (trace (run (run_test 2) acts0)) /\
      w_pc w ≠ Aborted consume_offset /\
      w_pc w ≠ Aborted acquire_offset /\
      (w_pc w = Claimed -> 0 <= w_off w < RBUF_SIZE) /\
      (w_pc w = Reserved -> 0 <= u64 (w_ret w) < RBUF_SIZE) /\
      (w_pc w = Copy -> 0 <= w_off w < RBUF_SIZE) /\
      (w_pc w = Decode -> w_rem w = w_len w -> 0 <= w_off w < RBUF_SIZE) /\
      (forall off len,
          EvCopy off len ∈ events_of 0 (trace (run (run_test 2) acts0)) ->
          0 <= off < RBUF_SIZE) /\
      (Forall (fun te => span_contract te.2)
         (trace (run (run_test 2) acts0)) ->
       forall off, addresses w = Some off -> 0 <= off < RBUF_SIZE)).
Proof.
  intros o acts1 acts0. split.
  - eexists. split; [vm_compute; reflexivity|].
    split; [vm_compute; reflexivity|].
    apply (offset_bound 2 acts1 1).
    + vm_compute. repeat constructor; intros; discriminate.
    + vm_compute. reflexivity.
  - eexists. split; [vm_compute; reflexivity|].
    split; [vm_compute; reflexivity|].
    split; [vm_compute; repeat constructor; intros; discriminate|].
    apply (offset_bound 2 acts0 0).
    + vm_compute. repeat constructor; intros; discriminate.
    + vm_compute. reflexivity.
Defined.

(** The offset contract by itself does not bound the consumer's cursor: the
    producer's first message, of 92 bytes, goes to offset 420 and so ends at
    the end of the region; the consumer is then given 93 bytes at offset 420.
    Every offset returned is in [[0, RBUF_SIZE)] and the copy-in stays inside
    the region, the first [verify_message] returns 92, which passes both
    assertions, and the loop goes on with [off = 512] and [rem = 1]: the next
    step calls [verify_message(&rbuf[512])], which reads the guard byte as a
    length and then past the end of [rbuf]. *)
Lemma offset_bound_counterexample :
  let o := Oracle 0 0 0 in
  let acts := [Run 1 o; Run 1 o; Run 1 o; Run 1 (Oracle 0 0 420); Run 1 o;
               Run 1 o; Run 1 o; Run 0 o; Run 0 o; Run 0 (Oracle 93 420 0);
               Run 0 o; Run 0 o]%nat in
  let s := run (run_test 2) acts in
  Forall (fun te => offset_contract te.2) (trace s) /\
  Forall (fun te => copy_in_region te.2) (trace s) /\
  drop 2 (trace s) =
    [(1, EvAcquire 92 420); (1, EvCopy 420 92); (1, EvProduce);
     (0, EvObserve 90); (0, EvConsume 93 420); (0, EvVerify 420 92)]%nat /\
  (exists w,
      workers s !! 0%nat = Some w /\
      (w_pc w, w_off w, w_rem w) = (Decode, 512, 1) /\
      addresses w = Some 512 /\ ~ 512 < RBUF_SIZE /\
      verify_message (drop (Z.to_nat 512) (rbuf (mem s))) = None /\
      w_pc (worker_step o (mem s) w).1.1 = Undefined) /\
  ~ (forall n acts tid w off,
        Forall (fun te => offset_contract te.2)
          (trace (run (run_test n) acts)) ->
        workers (run (run_test n) acts) !! tid = Some w ->
        addresses w = Some off -> 0 <= off < RBUF_SIZE).
Proof.
  intros o acts s.
  assert (Forall (fun te => offset_contract te.2) (trace s)) as Hcontract.
  { vm_compute. repeat constructor; intros; discriminate. }
  split; [exact Hcontract|].
  split; [vm_compute; repeat constructor; intros; discriminate|].
  split; [vm_compute; reflexivity|]. split.
  - eexists. split; [vm_compute; reflexivity|].
    split; [reflexivity|]. split; [reflexivity|].
    split; [unfold RBUF_SIZE; lia|]. split; vm_compute; reflexivity.
  - intros Hall.
    assert (0 <= 512 < RBUF_SIZE) as Hbad; [|unfold RBUF_SIZE in Hbad; lia].
    eapply (Hall 2%nat acts 0%nat); [exact Hcontract| |];
      vm_compute; reflexivity.
Qed.

(** * The consumer on a span of frames *)

Lemma frame_length L payload :
  Z.of_nat (length (frame L payload)) = Z.of_nat (length payload) + 2.
Proof. unfold frame. simpl. rewrite length_app. simpl. lia. Qed.

Lemma decode_frames o sh : forall fs w rest,
  w_pc w = Decode -> Forall is_frame fs ->
  drop (Z.to_nat (w_off w)) (rbuf sh) = concat fs ++ rest ->
  w_rem w = Z.of_nat (length (concat fs)) ->
  0 <= w_off w -> w_off w + w_rem w < 2 ^ 63 ->
  exists w',
    solo (replicate (length fs + 2) o) sh w =
      (w', sh, decode_events (w_off w) fs ++ [EvRelease (w_len w)]) /\
    w_pc w' = Loop /\ w_off w' = w_off w + w_rem w /\ w_rem w' = 0 /\
    w_len w' = w_len w.
Proof.
  induction fs as [|f fs IH]; intros w rest Hpc Hfs Hdrop Hrem Hoff Hmax;
    destruct w as [i sd p b l off rm t]; simpl in *; subst p.
  - subst rm. eexists. unfold worker_step. simpl.
    split; [reflexivity|]. repeat split. simpl. lia.
  - apply Forall_cons in Hfs as [(L & payload & HL & Hlen & Hp & ->) Hfs].
    rewrite length_app in Hrem.
    pose proof (frame_length L payload) as Hfl.
    set (fl := Z.of_nat (length (frame L payload))) in *.
    assert (fl = L + 2) as HflL by lia.
    unfold is_byte in HL.
    unfold worker_step at 1. simpl.
    rewrite decide_True by lia.
    rewrite Hdrop, <- (assoc_L (++)), verify_message_valid by assumption.
    rewrite decide_True by lia.
    rewrite s64_small by lia. rewrite decide_True by lia.
    unfold set_cursor. simpl.
    rewrite (u64_small (off + (L + 2))) by lia.
    rewrite (u64_small (rm - (L + 2))) by lia.
    destruct (IH (Worker i sd Decode b l (off + (L + 2)) (rm - (L + 2))
                    (L + 2)) rest) as (w' & Hsolo & Hpc' & Hoff' & Hrem' & Hl');
      simpl; try lia; try done.
    { replace (Z.to_nat (off + (L + 2)))
        with (Z.to_nat off + length (frame L payload))%nat by lia.
      rewrite <- drop_drop, Hdrop, <- (assoc_L (++)).
      by rewrite drop_app_length. }
    simpl in *. rewrite Hsolo. exists w'. rewrite HflL.
    split; [reflexivity|]. repeat split; try assumption. lia.
Qed.

Lemma frames_length fs :
  Forall is_frame fs -> length (concat fs) ≠ 0%nat ->
  (2 <= length (concat fs))%nat.
Proof.
  intros Hfs Hne. destruct Hfs as [|f fs (L & payload & _ & _ & _ & ->) _].
  - done.
  - simpl. rewrite !length_app. simpl. lia.
Qed.

(** C6. Full-span consumption: when [ringbuf_consume] returns a nonzero
    length [len] at offset [off] and [rbuf[off .. off+len)] holds well-formed
    frames back to back, the consumer calls [verify_message] once per frame,
    in order, each time at the offset just past the previous frame and
    getting that frame's size; no assertion fails; the cursor ends at
    [off + len] with nothing remaining; and the iteration ends with
    [ringbuf_release(ringbuf, len)]. *)
Theorem consumer_full_span (o : oracle) (sh : shared) (w : worker)
    (fs : list (list Z)) :
  let len := u64 (o_len o) in
  let off := u64 (o_off o) in
  w_pc w = Consume ->
  len ≠ 0 ->
  length (rbuf sh) = Z.to_nat (RBUF_SIZE + 1) ->
  Forall is_frame fs ->
  take (Z.to_nat len) (drop (Z.to_nat off) (rbuf sh)) = concat fs ->
  Z.of_nat (length (concat fs)) = len ->
  exists w',
    solo (replicate (length fs + 4) o) sh w =
      (w', sh, EvConsume len off :: decode_events off fs ++ [EvRelease len]) /\
    w_pc w' = Loop /\ w_off w' = off + len /\ w_rem w' = 0.
Proof.
  intros len off Hpc Hne Hbuf Hfs Hspan Hlen.
  pose proof (u64_range (o_off o)) as Hoff. fold off in Hoff.
  pose proof (frames_length fs Hfs ltac:(lia)) as H2.
  assert (off + len <= RBUF_SIZE + 1) as Hin.
  { pose proof (f_equal length Hspan) as Hl.
    rewrite length_take, length_drop in Hl. unfold RBUF_SIZE in *. lia. }
  assert (off < RBUF_SIZE) as Hlt by lia.
  destruct w as [i sd p b l f rm t]. simpl in *. subst p.
  replace (length fs + 4)%nat with (S (S (length fs + 2))) by lia.
  cbn [replicate solo]. unfold worker_step at 1. simpl.
  fold len off. rewrite decide_True by assumption.
  unfold worker_step at 1. simpl. rewrite decide_True by assumption.
  unfold set_pc, set_rem. simpl.
  destruct (decode_frames o sh fs (Worker i sd Decode b len off len t)
              (drop (Z.to_nat len) (drop (Z.to_nat off) (rbuf sh))))
    as (w' & Hsolo & Hpc' & Hoff' & Hrem' & _); simpl;
    try done; try lia.
  - by rewrite <- Hspan, take_drop.
  - unfold RBUF_SIZE in *. lia.
  - simpl in *. rewrite Hsolo. exists w'. by repeat split.
Qed.

Lemma consumer_full_span_witness :
  let o := Oracle 6 10 0 in
  let sh := Shared (replicate 10 90 ++ frame 2 [65; 66] ++ frame 0 []
                      ++ replicate 497 90) false in
  let fs := [frame 2 [65; 66]; frame 0 []] in
  exists w',
    solo (replicate (length fs + 4) o) sh (set_pc (spawn 0) Consume) =
      (w', sh,
       EvConsume (u64 6) (u64 10)
         :: decode_events (u64 10) fs ++ [EvRelease (u64 6)]) /\
    w_pc w' = Loop /\ w_off w' = u64 10 + u64 6 /\ w_rem w' = 0.
Proof.
  intros o sh fs.
  apply (consumer_full_span o sh (set_pc (spawn 0) Consume) fs).
  - reflexivity.
  - vm_compute. discriminate.
  - reflexivity.
  - repeat constructor.
    + exists 2, [65; 66]. unfold is_byte.
      repeat split; try lia; repeat constructor; lia.
    + exists 0, []. unfold is_byte.
      repeat split; try lia; repeat constructor; lia.
  - reflexivity.
  - reflexivity.
Defined.

(** * The producer on a full buffer *)

(** C7. No action on a full buffer: a producer iteration that starts at the
    loop head with [stop] clear and the guard byte intact, and in which
    [ringbuf_acquire] returns -1, makes the guard check, generates a message
    into its private buffer and calls [ringbuf_acquire], and nothing else: no
    copy-in, no [ringbuf_produce], no other ring buffer call; the shared
    state is left exactly as it was; no assertion fails and the worker is back
    at the loop head.  The step that gets -1 from [ringbuf_acquire] goes
    straight back to the loop head whatever the shared state is, and no step
    other than the copy-in changes the shared state. *)
Theorem producer_full_no_action :
  (forall (o1 o2 o3 o : oracle) (sh : shared) (w : worker),
      w_pc w = Loop -> stop sh = false -> w_id w ≠ 0 ->
      load (rbuf sh) RBUF_SIZE = Some MAGIC_BYTE ->
      length (w_buf w) = Z.to_nat BUF_SIZE ->
      s64 (o_ret o) = -1 ->
      exists w',
        solo [o1; o2; o3; o] sh w =
          (w', sh,
           [EvObserve MAGIC_BYTE;
            EvGenerate (message (w_seed w) (BUF_SIZE - 1));
            EvAcquire (chosen_length (w_seed w) (BUF_SIZE - 1) + 2) (-1)]) /\
        w_pc w' = Loop) /\
  (forall (o : oracle) (sh : shared) (w : worker),
      w_pc w = Acquire -> s64 (o_ret o) = -1 ->
      worker_step o sh w =
        (set_pc (set_ret w (-1)) Loop, sh, Some (EvAcquire (w_len w) (-1)))) /\
  (forall (o : oracle) (sh : shared) (w : worker),
      w_pc w ≠ Copy -> (worker_step o sh w).1.2 = sh).
Proof.
  split; [|split].
  - intros o1 o2 o3 o sh w Hpc Hstop Hid Hguard Hbuf Hret.
    destruct w as [i sd p b l f rm t]. simpl in *. subst p.
    rewrite BUF_SIZE_value in *.
    pose proof (generate_message_spec sd (256 - 1) ltac:(lia) b
                  ltac:(lia) ltac:(lia)) as Hgen.
    pose proof (message_length sd (256 - 1) ltac:(lia)) as Hml.
    remember (message sd (256 - 1)) as m eqn:Hm.
    cbn [solo]. unfold worker_step at 1. simpl. rewrite Hstop.
    unfold worker_step at 1. simpl. rewrite Hguard.
    rewrite decide_True by reflexivity. rewrite decide_False by assumption.
    unfold worker_step at 1. simpl. rewrite BUF_SIZE_value, Hgen.
    unfold worker_step at 1. simpl. rewrite Hret.
    rewrite decide_False by (intros H; by apply H).
    rewrite take_app_length' by lia.
    eexists. split; reflexivity.
  - intros o sh w Hpc Hret. destruct w as [i sd p b l f rm t].
    simpl in *. subst p. unfold worker_step. simpl. rewrite Hret.
    by rewrite decide_False by (intros H; by apply H).
  - intros o sh w Hpc. destruct w as [i sd p b l f rm t]. simpl in *.
    destruct p; try done; unfold worker_step; simpl;
      repeat (case_match || case_decide); done.
Qed.

Lemma producer_full_no_action_witness :
  let o := Oracle 0 0 0 in
  let full := Oracle 0 0 (-1) in
  (exists w',
      solo [o; o; o; full] (mem (run_test 2)) (spawn 1) =
        (w', mem (run_test 2),
         [EvObserve MAGIC_BYTE;
          EvGenerate (message (w_seed (spawn 1)) (BUF_SIZE - 1));
          EvAcquire (chosen_length (w_seed (spawn 1)) (BUF_SIZE - 1) + 2)
            (-1)]) /\
      w_pc w' = Loop) /\
  worker_step full (mem (run_test 2)) (set_pc (spawn 1) Acquire) =
    (set_pc (set_ret (set_pc (spawn 1) Acquire) (-1)) Loop, mem (run_test 2),
     Some (EvAcquire (w_len (set_pc (spawn 1) Acquire)) (-1))) /\
  (worker_step full (mem (run_test 2)) (set_pc (spawn 1) Acquire)).1.2 =
    mem (run_test 2).
Proof.
  intros o full.
  destruct producer_full_no_action as (H1 & H2 & H3).
  split; [|split].
  - apply (H1 o o o full); try reflexivity. simpl. discriminate.
  - apply H2; reflexivity.
  - apply H3. simpl. discriminate.
Defined.

(** * More about the generator *)

Section Xorshift.

#[local] Transparent fast_random.

(** Exclusive-or is linear: equal sums move across. *)
Lemma lxor_move a b c d : Z.lxor a b = Z.lxor c d -> Z.lxor a c = Z.lxor b d.
Proof.
  intros H. apply Z.bits_inj'. intros n _.
  apply (f_equal (fun z => Z.testbit z n)) in H.
  rewrite !Z.lxor_spec in *.
  destruct (Z.testbit a n), (Z.testbit b n), (Z.testbit c n),
    (Z.testbit d n); simpl in *; congruence.
Qed.

(** Only 0 is its own left shift within 32 bits. *)
Lemma shiftl_fixed z k : 0 < k -> u32 (Z.shiftl z k) = z -> z = 0.
Proof.
  intros Hk Hz. apply Z.bits_inj_0. intros n.
  destruct (Z.neg_nonneg_cases n) as [Hn|Hn]; [by apply Z.testbit_neg_r|].
  revert n Hn. apply Z_lt_induction. intros n IH.
  rewrite <- Hz. unfold u32. rewrite Z.testbit_mod_pow2 by lia.
  destruct (Z.ltb_spec n 32); simpl; [|reflexivity].
  destruct (Z.neg_nonneg_cases n) as [Hn|Hn]; [by apply Z.testbit_neg_r|].
  rewrite Z.shiftl_spec by assumption.
  destruct (Z.neg_nonneg_cases (n - k)) as [Hm|Hm];
    [by apply Z.testbit_neg_r|].
  apply IH. lia.
Qed.

(** Only 0 is its own right shift. *)
Lemma shiftr_fixed z k : 0 < k -> 0 <= z -> Z.shiftr z k = z -> z = 0.
Proof.
  intros Hk Hz H. rewrite Z.shiftr_div_pow2 in H by lia.
  destruct (decide (z = 0)) as [|Hne]; [assumption|].
  assert (1 < 2 ^ k) by (apply Z.pow_gt_1; lia).
  pose proof (Z.div_lt z (2 ^ k) ltac:(lia) ltac:(lia)). lia.
Qed.

Lemma xor_shiftl_inj k x y :
  0 < k ->
  Z.lxor x (u32 (Z.shiftl x k)) = Z.lxor y (u32 (Z.shiftl y k)) -> x = y.
Proof.
  intros Hk H. apply lxor_move in H. apply Z.lxor_eq.
  apply (shiftl_fixed _ k Hk).
  rewrite Z.shiftl_lxor. unfold u32 in *. rewrite wrap_lxor by lia.
  symmetry. exact H.
Qed.

Lemma xor_shiftr_inj k x y :
  0 < k -> 0 <= x -> 0 <= y ->
  Z.lxor x (Z.shiftr x k) = Z.lxor y (Z.shiftr y k) -> x = y.
Proof.
  intros Hk Hx Hy H. apply lxor_move in H. apply Z.lxor_eq.
  apply (shiftr_fixed _ k Hk).
  - apply Z.lxor_nonneg. tauto.
  - rewrite Z.shiftr_lxor. symmetry. exact H.
Qed.

(** X1. The generator is one-to-one on 32-bit seeds and stays within 32
    bits: two different seeds never lead to the same value (and next seed),
    and 0 is the only seed that leads to 0. *)
Theorem fast_random_injective (s1 s2 : Z) :
  0 <= s1 < 2 ^ 32 -> 0 <= s2 < 2 ^ 32 ->
  (0 <= (fast_random s1).1 < 2 ^ 32) /\
  ((fast_random s1).1 = (fast_random s2).1 -> s1 = s2) /\
  ((fast_random s1).1 = 0 <-> s1 = 0).
Proof.
  intros H1 H2.
  assert (forall a b, 0 <= a < 2 ^ 32 -> 0 <= b < 2 ^ 32 ->
            (fast_random a).1 = (fast_random b).1 -> a = b) as Hinj.
  { intros a b Ha Hb. unfold fast_random. simpl. intros H.
    apply xor_shiftl_inj in H; [|lia].
    apply xor_shiftr_inj in H; [|lia| |].
    - apply xor_shiftl_inj in H; [assumption|lia].
    - apply lxor_u32; [assumption|apply u32_range].
    - apply lxor_u32; [assumption|apply u32_range]. }
  split; [apply (fast_random_range s1 H1)|]. split; [by apply Hinj|].
  split.
  - intros H0. apply Hinj; [assumption|lia|]. rewrite H0. reflexivity.
  - intros ->. reflexivity.
Qed.

Lemma fast_random_injective_witness :
  (0 <= (fast_random 5381).1 < 2 ^ 32) /\
  ((fast_random 5381).1 = (fast_random 1).1 -> 5381 = 1) /\
  ((fast_random 5381).1 = 0 <-> 5381 = 0).
Proof. apply (fast_random_injective 5381 1); lia. Defined.

(** A nonzero 32-bit seed leads to a nonzero 32-bit seed. *)
Lemma fast_random_live seed :
  0 < seed < 2 ^ 32 -> 0 < (fast_random seed).2 < 2 ^ 32.
Proof.
  intros Hs.
  destruct (fast_random_range seed ltac:(lia)) as [Hr ->].
  destruct (decide ((fast_random seed).1 = 0)) as [H0|Hne]; [|lia].
  assert (seed = 0); [|lia].
  apply xor_shiftl_inj with (k := 13); [lia|].
  apply xor_shiftr_inj with (k := 17); [lia| | |].
  - apply lxor_u32; [lia|apply u32_range].
  - reflexivity.
  - apply xor_shiftl_inj with (k := 5); [lia|]. exact H0.
Qed.

End Xorshift.

#[local] Opaque fast_random.

(** The seed [generate_message] leaves behind is reached from the seed it
    found by calls of [fast_random] alone. *)
Lemma generate_loop_seed (P : Z -> Prop) :
  (forall s, P s -> P (fast_random s).2) ->
  forall n seed buf i ck seed' buf' i' ck',
    generate_loop n seed buf i ck = Some (seed', buf', i', ck') ->
    P seed -> P seed'.
Proof.
  intros Hkeep. induction n as [|n IH];
    intros seed buf i ck seed' buf' i' ck' Hloop Hseed; simpl in Hloop.
  - by simplify_eq.
  - specialize (Hkeep seed Hseed).
    destruct (fast_random seed) as [r seed1]. simpl in *.
    destruct (store buf i _) as [buf1|]; [|discriminate]. simpl in Hloop.
    destruct (load buf1 i) as [b|]; [|discriminate]. simpl in Hloop.
    eapply IH; eassumption.
Qed.

Lemma generate_message_seed (P : Z -> Prop) seed buf buflen seed' buf' ret :
  (forall s, P s -> P (fast_random s).2) ->
  generate_message seed buf buflen = Some (seed', buf', ret) ->
  P seed -> P seed'.
Proof.
  intros Hkeep Hgen Hseed. unfold generate_message in Hgen.
  case_decide; [discriminate|].
  pose proof (Hkeep seed Hseed) as H1.
  destruct (fast_random seed) as [r seed1]. simpl in *.
  destruct (generate_loop _ seed1 buf 1 0) as [[[[seed2 buf2] i2] ck2]|] eqn:Hl;
    [|discriminate]. simpl in Hgen.
  pose proof (generate_loop_seed P Hkeep _ _ _ _ _ _ _ _ _ Hl H1) as H2.
  destruct (store buf2 i2 ck2) as [buf3|]; [|discriminate]. simpl in Hgen.
  destruct (store buf3 0 _) as [buf4|]; [|discriminate]. simpl in Hgen.
  by simplify_eq.
Qed.

(** X2. No thread's generator ever degenerates: in every run the seed of
    every thread is a nonzero 32-bit value. *)
Theorem seed_stays_live (n : nat) (acts : list action) (tid : nat)
    (w : worker) :
  workers (run (run_test n) acts) !! tid = Some w ->
  0 < w_seed w < 2 ^ 32.
Proof.
  intros Hw.
  refine (thread_invariant n (fun w _ => 0 < w_seed w < 2 ^ 32) _ _
            acts tid w Hw).
  - intros i. simpl. unfold fast_random_seed_init. lia.
  - intros o sh w0 es w' sh' ev Hstep Hseed.
    destruct (worker_step_generate _ _ _ _ _ _ Hstep)
      as [(Hs & _ & _) | (len & Hg & _)].
    + by rewrite Hs.
    + eapply (generate_message_seed (fun s => 0 < s < 2 ^ 32));
        [exact fast_random_live | exact Hg | exact Hseed].
Qed.

Lemma seed_stays_live_witness :
  let o := Oracle 0 0 0 in
  exists w,
    workers (run (run_test 2) [Run 1 o; Run 1 o; Run 1 o]%nat) !! 1%nat
      = Some w /\
    w_pc w = Acquire /\ 0 < w_seed w < 2 ^ 32.
Proof.
  intros o. eexists. split; [vm_compute; reflexivity|].
  split; [reflexivity|].
  apply (seed_stays_live 2 [Run 1 o; Run 1 o; Run 1 o]%nat 1).
  vm_compute. reflexivity.
Defined.

(** * Bounds of [verify_message] *)

Lemma verify_loop_index n : forall buf i ck j c,
  verify_loop n buf i ck = Some (j, c) ->
  0 <= i -> i + Z.of_nat n < 2 ^ 32 -> j = i + Z.of_nat n.
Proof.
  induction n as [|n IH]; intros buf i ck j c H Hi Hmax; simpl in H.
  - simplify_eq. lia.
  - destruct (load buf i) as [b|]; [|discriminate]. simpl in H.
    apply IH in H; rewrite u32_small in * by lia; lia.
Qed.

(** A buffer of bytes with a length byte [L] and at least [L + 2] bytes
    splits into the length byte, [L] payload bytes, one more byte and the
    rest. *)
Lemma split_frame (buf : list Z) (L : Z) :
  bytes buf -> load buf 0 = Some L -> L + 2 <= Z.of_nat (length buf) ->
  exists payload c rest,
    buf = L :: payload ++ c :: rest /\ is_byte L /\
    Z.of_nat (length payload) = L /\ bytes payload /\
    take (Z.to_nat (L + 2)) buf = L :: payload ++ [c].
Proof.
  intros Hb H0 Hlen. destruct buf as [|b0 tl]; [discriminate|].
  injection H0 as ->. apply Forall_cons in Hb as [HL Htl].
  unfold is_byte in HL. simpl in Hlen.
  assert (Z.to_nat L < length tl)%nat as Hlt by lia.
  destruct (lookup_lt_is_Some_2 tl _ Hlt) as [c Hc].
  exists (take (Z.to_nat L) tl), c, (drop (S (Z.to_nat L)) tl).
  rewrite (take_drop_middle tl _ c Hc). split; [reflexivity|].
  split; [exact HL|]. split; [rewrite length_take; lia|].
  split; [by apply Forall_take|].
  replace (Z.to_nat (L + 2)) with (S (S (Z.to_nat L))) by lia. simpl.
  f_equal. rewrite <- (take_drop_middle tl _ c Hc) at 1.
  rewrite take_app_ge by (rewrite length_take; lia).
  rewrite length_take. replace (S (Z.to_nat L) - _)%nat with 1%nat by lia.
  reflexivity.
Qed.

Lemma verify_message_in_bounds (buf : list Z) (r : Z) :
  bytes buf -> verify_message buf = Some r ->
  exists L, load buf 0 = Some L /\ L + 2 <= Z.of_nat (length buf).
Proof.
  intros Hb Hr. unfold verify_message in Hr.
  destruct (load buf 0) as [L|] eqn:H0; [|discriminate]. simpl in Hr.
  assert (is_byte L) as HL.
  { apply (proj1 (Forall_lookup _ buf) Hb (Z.to_nat 0) L H0). }
  rewrite (u8_byte L HL) in Hr. unfold is_byte in HL.
  destruct (verify_loop _ buf 1 0) as [[j c]|] eqn:Hloop; [|discriminate].
  simpl in Hr. apply verify_loop_index in Hloop; [|lia|lia].
  destruct (load buf j) as [bj|] eqn:Hj; [|discriminate].
  apply lookup_lt_Some in Hj. exists L. split; [reflexivity|lia].
Qed.

(** X3. Memory safety of [verify_message]: on a buffer of bytes the call
    stays inside the buffer exactly when the buffer holds a length byte [L]
    and at least [L + 2] bytes; on anything shorter it reads past the end. *)
Theorem verify_message_defined (buf : list Z) :
  bytes buf ->
  (is_Some (verify_message buf) <->
   exists L, load buf 0 = Some L /\ L + 2 <= Z.of_nat (length buf)).
Proof.
  intros Hb. split.
  - intros [r Hr]. by apply (verify_message_in_bounds buf r).
  - intros (L & H0 & Hlen).
    destruct (split_frame buf L Hb H0 Hlen)
      as (payload & c & rest & -> & HL & Hpl & Hp & _).
    rewrite verify_message_frame by assumption. eauto.
Qed.

Lemma verify_message_defined_witness :
  (is_Some (verify_message [2; 65; 66; 3; 9]) <->
   exists L, load [2; 65; 66; 3; 9] 0 = Some L /\
             L + 2 <= Z.of_nat (length [2; 65; 66; 3; 9])) /\
  (is_Some (verify_message [2; 65; 66]) <->
   exists L, load [2; 65; 66] 0 = Some L /\
             L + 2 <= Z.of_nat (length [2; 65; 66])).
Proof.
  split; apply verify_message_defined;
    repeat constructor; unfold is_byte; lia.
Defined.

(** X4. What [verify_message] can return: on a buffer of bytes with length
    byte [L] the value is -1 or the frame size [L + 2], which lies between 2
    and 257 and is never 0; and it depends on the first [L + 2] bytes only,
    whatever follows them in the buffer. *)
Theorem verify_message_result (buf : list Z) (r : Z) :
  bytes buf -> verify_message buf = Some r ->
  exists L,
    load buf 0 = Some L /\
    (r = -1 \/ r = L + 2 /\ 2 <= r <= 257) /\
    forall rest,
      verify_message (take (Z.to_nat (L + 2)) buf ++ rest) = Some r.
Proof.
  intros Hb Hr.
  destruct (verify_message_in_bounds buf r Hb Hr) as (L & H0 & Hlen).
  destruct (split_frame buf L Hb H0 Hlen)
    as (payload & c & rest0 & Hbuf & HL & Hpl & Hp & Htake).
  exists L. split; [exact H0|]. rewrite Htake. clear Htake. subst buf.
  rewrite verify_message_frame in Hr by assumption.
  unfold is_byte in HL. split.
  - case_decide; simplify_eq; [by left|right; lia].
  - intros rest. simpl. rewrite <- (assoc_L (++)). simpl.
    by rewrite verify_message_frame by assumption.
Qed.

Lemma verify_message_result_witness :
  exists L,
    load [2; 65; 67; 3; 9] 0 = Some L /\
    (-1 = -1 \/ -1 = L + 2 /\ 2 <= -1 <= 257) /\
    forall rest,
      verify_message (take (Z.to_nat (L + 2)) [2; 65; 67; 3; 9] ++ rest)
        = Some (-1).
Proof.
  apply (verify_message_result [2; 65; 67; 3; 9] (-1)).
  - repeat constructor; unfold is_byte; lia.
  - reflexivity.
Defined.

(** * [generate_message] beyond one length byte *)

(** For any buffer length that [unsigned] holds: the frame written carries
    the drawn length modulo 256 in its length byte. *)
Lemma generate_message_wide (seed : Z) (buf : list Z) (buflen : Z) :
  2 < buflen <= 2 ^ 32 -> buflen - 1 <= Z.of_nat (length buf) ->
  generate_message seed buf buflen =
  Some ((chosen_payload seed buflen).2,
        u8 (chosen_length seed buflen) :: (chosen_payload seed buflen).1
          ++ xor_all (chosen_payload seed buflen).1
          :: drop (Z.to_nat (chosen_length seed buflen) + 2) buf,
        chosen_length seed buflen + 2).
Proof.
  intros Hb Hlen.
  pose proof (chosen_length_range seed buflen ltac:(lia)) as Hrange.
  pose proof (chosen_payload_length seed buflen ltac:(lia)) as Hpl.
  unfold chosen_payload, chosen_length in *.
  unfold generate_message.
  assert (u64 (buflen - 2) = buflen - 2) as ->
    by (unfold u64; apply Z.mod_small; lia).
  rewrite decide_False by lia.
  destruct (fast_random seed) as [r seed1]. simpl in *.
  set (len := r mod (buflen - 2)) in *.
  rewrite (u32_small len) by lia.
  set (n := Z.to_nat len) in *.
  destruct buf as [|b0 tl]; [simpl in Hlen; lia|]. simpl in Hlen.
  assert (n < length tl)%nat as Hn by lia.
  destruct (lookup_lt_is_Some_2 tl n Hn) as [c Hc].
  rewrite <- (take_drop_middle tl n c Hc) at 1.
  pose proof (generate_loop_spec n seed1 [b0] (take n tl)
                (c :: drop (S n) tl) 0) as H.
  change (Z.of_nat (length [b0])) with 1 in H. simpl in H.
  rewrite length_take_le in H by lia.
  assert (bytes_0 : is_byte 0) by (unfold is_byte; lia).
  specialize (H ltac:(reflexivity) bytes_0 ltac:(lia)).
  simpl. rewrite H. clear H. simpl.
  pose proof (random_payload_length n seed1) as Hpn.
  destruct (random_payload n seed1) as [p seed2]. simpl in *.
  rewrite (store_middle (b0 :: p) (drop (S n) tl) c) by (simpl; lia).
  simpl. unfold store. simpl. rewrite Z.lxor_0_l.
  rewrite u32_small by lia.
  replace (n + 2)%nat with (S (S n)) by lia. simpl.
  by replace (Z.of_nat (S n) + 1) with (len + 2) by lia.
Qed.

(** X5. One length byte is all a frame has: when the payload length drawn
    is 256 or more (possible only for [buflen] above 258), [generate_message]
    still returns [len + 2] but stores [len mod 256] in [buf[0]], and
    [verify_message] does not give [len + 2] back for that frame. *)
Theorem length_byte_truncation (seed : Z) (buf : list Z) (buflen : Z) :
  2 < buflen <= 2 ^ 32 -> buflen - 1 <= Z.of_nat (length buf) ->
  256 <= chosen_length seed buflen ->
  exists seed' buf' r,
    generate_message seed buf buflen
      = Some (seed', buf', chosen_length seed buflen + 2) /\
    load buf' 0 = Some (chosen_length seed buflen mod 256) /\
    verify_message buf' = Some r /\
    r ≠ chosen_length seed buflen + 2.
Proof.
  intros Hb Hlen Hbig.
  pose proof (chosen_payload_length seed buflen ltac:(lia)) as Hpl.
  pose proof (random_payload_bytes
                (Z.to_nat (chosen_length seed buflen)) (fast_random seed).2)
    as Hp.
  fold (chosen_payload seed buflen) in Hp.
  pose proof (generate_message_wide seed buf buflen Hb Hlen) as Hgen.
  set (len := chosen_length seed buflen) in *.
  set (p := (chosen_payload seed buflen).1) in *.
  pose proof (u8_is_byte len) as HL.
  set (L := u8 len) in *. unfold is_byte in HL.
  assert (Z.to_nat L < length p)%nat as Hlt by lia.
  destruct (lookup_lt_is_Some_2 p _ Hlt) as [c Hc].
  eexists _, _, _. split; [exact Hgen|].
  split; [reflexivity|].
  rewrite <- (take_drop_middle p _ c Hc), <- (assoc_L (++)). simpl.
  rewrite verify_message_frame.
  - split; [reflexivity|]. case_decide; lia.
  - exact HL.
  - rewrite length_take. lia.
  - by apply Forall_take.
Qed.

Lemma length_byte_truncation_witness :
  exists seed' buf' r,
    generate_message 7 (replicate 512 0) 512
      = Some (seed', buf', chosen_length 7 512 + 2) /\
    load buf' 0 = Some (chosen_length 7 512 mod 256) /\
    verify_message buf' = Some r /\
    r ≠ chosen_length 7 512 + 2.
Proof.
  apply (length_byte_truncation 7 (replicate 512 0) 512).
  - lia.
  - rewrite length_replicate. lia.
  - vm_compute. discriminate.
Defined.

(** * The region before anything is written *)

Lemma xor_all_magic : xor_all (replicate 90 MAGIC_BYTE) = 0.
Proof. reflexivity. Qed.

Lemma verify_message_magic (m : nat) :
  verify_message (replicate m MAGIC_BYTE) =
  if decide (92 <= m)%nat then Some (-1) else None.
Proof.
  assert (is_byte MAGIC_BYTE) as Hmagic by (unfold is_byte, MAGIC_BYTE; lia).
  case_decide as Hm.
  - replace (replicate m MAGIC_BYTE)
      with (MAGIC_BYTE :: replicate 90 MAGIC_BYTE
              ++ MAGIC_BYTE :: replicate (m - 92) MAGIC_BYTE).
    2:{ replace m with (1 + (90 + (1 + (m - 92))))%nat at 2 by lia.
        by rewrite !replicate_add. }
    rewrite verify_message_frame.
    + rewrite xor_all_magic. reflexivity.
    + exact Hmagic.
    + by rewrite length_replicate.
    + by apply Forall_replicate.
  - destruct (verify_message (replicate m MAGIC_BYTE)) as [r|] eqn:Hr;
      [|reflexivity].
    apply verify_message_in_bounds in Hr as (L & H0 & Hlen);
      [|by apply Forall_replicate].
    rewrite length_replicate in Hlen. unfold load in H0.
    apply lookup_replicate in H0 as [-> _]. unfold MAGIC_BYTE in Hlen. lia.
Qed.

(** X6. The fill pattern is not a frame: on the region as [run_test]
    initialises it, [verify_message] at any offset returns -1 as long as the
    92 bytes it reads (length byte 0x5a, 90 payload bytes, checksum) lie
    inside [rbuf], and reads past the end of [rbuf] from any later offset; a
    consumer decoding there stops on [assert(ret > 0)]. *)
Theorem fresh_region_rejected (n : nat) (o : oracle) (w : worker) :
  0 <= w_off w ->
  verify_message (drop (Z.to_nat (w_off w)) (rbuf (mem (run_test n)))) =
    (if decide (w_off w + 92 <= RBUF_SIZE + 1) then Some (-1) else None) /\
  (w_pc w = Decode -> w_rem w ≠ 0 ->
   w_pc (worker_step o (mem (run_test n)) w).1.1 =
     if decide (w_off w + 92 <= RBUF_SIZE + 1)
     then Aborted verify_positive else Undefined).
Proof.
  intros Hoff.
  assert (verify_message (drop (Z.to_nat (w_off w)) (rbuf (mem (run_test n))))
          = if decide (w_off w + 92 <= RBUF_SIZE + 1)
            then Some (-1) else None) as Hv.
  { change (rbuf (mem (run_test n)))
      with (replicate (Z.to_nat (RBUF_SIZE + 1)) MAGIC_BYTE).
    rewrite drop_replicate, verify_message_magic.
    unfold RBUF_SIZE. repeat case_decide; try reflexivity; lia. }
  split; [exact Hv|]. intros Hpc Hrem.
  unfold worker_step. rewrite Hpc, decide_True by assumption.
  rewrite Hv. case_decide; reflexivity.
Qed.

Lemma fresh_region_rejected_witness :
  let w := Worker 0 5381 Decode [] 92 100 92 0 in
  verify_message (drop (Z.to_nat (w_off w)) (rbuf (mem (run_test 2)))) =
    (if decide (w_off w + 92 <= RBUF_SIZE + 1) then Some (-1) else None) /\
  (w_pc w = Decode -> w_rem w ≠ 0 ->
   w_pc (worker_step (Oracle 0 0 0) (mem (run_test 2)) w).1.1 =
     if decide (w_off w + 92 <= RBUF_SIZE + 1)
     then Aborted verify_positive else Undefined).
Proof.
  intros w. apply (fresh_region_rejected 2 (Oracle 0 0 0) w). simpl. lia.
Defined.

(** * A producer iteration that gets its reservation *)

Lemma message_accepted seed rest :
  verify_message (message seed (BUF_SIZE - 1) ++ rest)
    = Some (Z.of_nat (length (message seed (BUF_SIZE - 1)))).
Proof.
  rewrite BUF_SIZE_value.
  rewrite (message_length seed (256 - 1)) by lia.
  pose proof (chosen_length_range seed (256 - 1) ltac:(lia)).
  unfold message. apply verify_message_valid.
  - unfold is_byte. lia.
  - apply chosen_payload_length. lia.
  - apply random_payload_bytes.
Qed.

Lemma producer_iteration (o1 o2 o3 o o5 o6 o7 : oracle) (sh : shared)
    (w : worker) :
  let m := message (w_seed w) (BUF_SIZE - 1) in
  let off := s64 (o_ret o) in
  w_pc w = Loop -> stop sh = false -> w_id w ≠ 0 ->
  load (rbuf sh) RBUF_SIZE = Some MAGIC_BYTE ->
  length (w_buf w) = Z.to_nat BUF_SIZE ->
  0 <= off < RBUF_SIZE ->
  off + Z.of_nat (length m) <= Z.of_nat (length (rbuf sh)) ->
  exists w',
    solo [o1; o2; o3; o; o5; o6; o7] sh w =
      (w', published sh off m,
       [EvObserve MAGIC_BYTE; EvGenerate m;
        EvAcquire (Z.of_nat (length m)) off;
        EvCopy off (Z.of_nat (length m)); EvProduce]) /\
    w_pc w' = Loop.
Proof.
  intros m off Hpc Hstop Hid Hguard Hbuf Hoff Hfit.
  destruct w as [i sd p b l f rm t].
  cbn [w_pc w_seed w_buf w_id] in *. subst p m.
  rewrite BUF_SIZE_value in *.
  pose proof (generate_message_spec sd (256 - 1) ltac:(lia) b
                ltac:(lia) ltac:(lia)) as Hgen.
  pose proof (message_length sd (256 - 1) ltac:(lia)) as Hml.
  pose proof (chosen_length_range sd (256 - 1) ltac:(lia)) as Hcl.
  remember (message sd (256 - 1)) as m eqn:Hm. clear Hm.
  cbn [solo]. unfold worker_step at 1. simpl. rewrite Hstop.
  unfold worker_step at 1. simpl. rewrite Hguard.
  rewrite decide_True by reflexivity. rewrite decide_False by assumption.
  unfold worker_step at 1. simpl. rewrite BUF_SIZE_value, Hgen.
  unfold worker_step at 1. simpl. fold off.
  rewrite decide_True by (unfold RBUF_SIZE in *; lia).
  unfold worker_step at 1. simpl.
  rewrite (u64_small off) by (unfold RBUF_SIZE in *; lia).
  rewrite decide_True by lia.
  unfold worker_step at 1. simpl. unfold memcpy.
  rewrite decide_True by lia.
  rewrite decide_True by (rewrite length_app, length_drop; lia).
  unfold worker_step at 1. simpl.
  rewrite <- Hml. rewrite Nat2Z.id.
  rewrite !take_app_length.
  eexists. split; reflexivity.
Qed.

(** X7. A producer iteration that gets its reservation: from the loop head,
    with [stop] clear and the guard byte intact, an acquire that returns an
    offset in the region makes the producer generate one message, ask for
    exactly its length, copy exactly those bytes to the offset returned and
    call produce; no byte outside [rbuf[off .. off+len)] changes, and
    [verify_message] at that offset then returns the length that was
    reserved. *)
Theorem producer_publishes (o1 o2 o3 o o5 o6 o7 : oracle) (sh : shared)
    (w : worker) :
  let m := message (w_seed w) (BUF_SIZE - 1) in
  let off := s64 (o_ret o) in
  let len := Z.of_nat (length m) in
  w_pc w = Loop -> stop sh = false -> w_id w ≠ 0 ->
  load (rbuf sh) RBUF_SIZE = Some MAGIC_BYTE ->
  length (w_buf w) = Z.to_nat BUF_SIZE ->
  0 <= off < RBUF_SIZE ->
  off + len <= Z.of_nat (length (rbuf sh)) ->
  exists w' sh',
    solo [o1; o2; o3; o; o5; o6; o7] sh w =
      (w', sh',
       [EvObserve MAGIC_BYTE; EvGenerate m; EvAcquire len off;
        EvCopy off len; EvProduce]) /\
    w_pc w' = Loop /\
    length (rbuf sh') = length (rbuf sh) /\
    take (Z.to_nat len) (drop (Z.to_nat off) (rbuf sh')) = m /\
    (forall j : nat,
        ~ (off <= Z.of_nat j < off + len) ->
        rbuf sh' !! j = rbuf sh !! j) /\
    verify_message (drop (Z.to_nat off) (rbuf sh')) = Some len.
Proof.
  intros m off len Hpc Hstop Hid Hguard Hbuf Hoff Hfit.
  destruct (producer_iteration o1 o2 o3 o o5 o6 o7 sh w Hpc Hstop Hid Hguard
              Hbuf Hoff Hfit) as (w' & Hsolo & Hloop).
  fold m off len in Hsolo. exists w', (published sh off m).
  split; [exact Hsolo|]. split; [exact Hloop|].
  clear Hsolo. pose proof (message_accepted (w_seed w)) as Hacc.
  fold m in Hacc. unfold len in *. clearbody m. unfold published. cbn [rbuf].
  assert (Z.to_nat off = length (take (Z.to_nat off) (rbuf sh))) as Htake
    by (rewrite length_take; lia).
  split; [|split; [|split]].
  - rewrite !length_app, <- Htake, length_drop. lia.
  - rewrite drop_app_length' by exact Htake.
    rewrite Nat2Z.id. apply take_app_length.
  - intros j Hj. destruct (decide (Z.of_nat j < off)) as [Hlt|Hge].
    + rewrite lookup_app_l by lia. apply lookup_take_lt. lia.
    + rewrite (assoc_L (++)), lookup_app_r by (rewrite length_app; lia).
      rewrite lookup_drop. f_equal. rewrite length_app. lia.
  - rewrite drop_app_length' by exact Htake. apply Hacc.
Qed.

Lemma producer_publishes_witness :
  let o := Oracle 0 0 0 in
  let a := Oracle 0 0 10 in
  let sh := mem (run_test 2) in
  let m := message 5381 (BUF_SIZE - 1) in
  let len := Z.of_nat (length m) in
  exists w' sh',
    solo [o; o; o; a; o; o; o] sh (spawn 1) =
      (w', sh',
       [EvObserve MAGIC_BYTE; EvGenerate m; EvAcquire len 10;
        EvCopy 10 len; EvProduce]) /\
    w_pc w' = Loop /\
    length (rbuf sh') = length (rbuf sh) /\
    take (Z.to_nat len) (drop (Z.to_nat 10) (rbuf sh')) = m /\
    (forall j : nat,
        ~ (10 <= Z.of_nat j < 10 + len) ->
        rbuf sh' !! j = rbuf sh !! j) /\
    verify_message (drop (Z.to_nat 10) (rbuf sh')) = Some len.
Proof.
  intros o a sh m len.
  apply (producer_publishes o o o a o o o sh (spawn 1));
    try reflexivity; try (vm_compute; intuition discriminate).
Defined.

(** X8. From producer to consumer through the region: after a producer
    iteration that got the offset [off] for its message of [len] bytes, a
    consumer whose [ringbuf_consume] returns that span makes one call of
    [verify_message] at [off], gets [len], fails no assertion, changes no
    byte of the region and calls [ringbuf_release(ringbuf, len)]. *)
Theorem published_frame_consumed (o oc : oracle) (sh : shared)
    (wp wc : worker) :
  let m := message (w_seed wp) (BUF_SIZE - 1) in
  let off := s64 (o_ret o) in
  let len := Z.of_nat (length m) in
  w_pc wp = Loop -> stop sh = false -> w_id wp ≠ 0 ->
  load (rbuf sh) RBUF_SIZE = Some MAGIC_BYTE ->
  length (w_buf wp) = Z.to_nat BUF_SIZE ->
  0 <= off < RBUF_SIZE ->
  off + len <= Z.of_nat (length (rbuf sh)) ->
  w_pc wc = Consume -> u64 (o_len oc) = len -> u64 (o_off oc) = off ->
  exists wp' wc' evs,
    solo (replicate 7 o) sh wp = (wp', published sh off m, evs) /\
    solo (replicate 5 oc) (published sh off m) wc =
      (wc', published sh off m,
       [EvConsume len off; EvVerify off len; EvRelease len]) /\
    w_pc wc' = Loop.
Proof.
  intros m off len Hpc Hstop Hid Hguard Hbuf Hoff Hfit Hpcc Holen Hooff.
  destruct (producer_iteration o o o o o o o sh wp Hpc Hstop Hid Hguard Hbuf
              Hoff Hfit) as (wp' & Hsolo & _).
  fold m off in Hsolo.
  exists wp'.
  assert (is_frame m) as Hframe.
  { unfold m. rewrite BUF_SIZE_value. apply message_is_frame. lia. }
  assert (2 <= len) as Hlen2.
  { unfold len, m. rewrite BUF_SIZE_value.
    rewrite (message_length (w_seed wp) (256 - 1)) by lia.
    pose proof (chosen_length_range (w_seed wp) (256 - 1) ltac:(lia)). lia. }
  assert (len <= 254) as Hlen254.
  { unfold len, m. rewrite BUF_SIZE_value.
    rewrite (message_length (w_seed wp) (256 - 1)) by lia.
    pose proof (chosen_length_range (w_seed wp) (256 - 1) ltac:(lia)). lia. }
  fold len in Hfit. clearbody m.
  destruct wc as [i sd p b l f rm t]. cbn [w_pc] in Hpcc. subst p.
  destruct (decode_frames oc (published sh off m) [m]
              (Worker i sd Decode b len off len t)
              (drop (Z.to_nat off + length m) (rbuf sh)))
    as (wc' & Hdec & Hpc' & _); cbn [w_pc w_off w_rem w_len concat].
  - reflexivity.
  - by repeat constructor.
  - unfold published. cbn [rbuf].
    rewrite drop_app_length' by (rewrite length_take; lia).
    by rewrite (right_id_L [] (++)).
  - by rewrite (right_id_L [] (++)).
  - lia.
  - unfold RBUF_SIZE in *. lia.
  - exists wc'. eexists. split; [exact Hsolo|]. split; [|exact Hpc'].
    change (replicate 5 oc) with (oc :: oc :: replicate (length [m] + 2) oc).
    cbn [solo]. unfold worker_step at 1. cbn [w_pc]. rewrite Holen, Hooff.
    rewrite decide_True by lia.
    unfold worker_step at 1. simpl.
    rewrite decide_True by lia.
    unfold set_pc, set_rem. simpl. simpl in Hdec. rewrite Hdec.
    reflexivity.
Qed.

Lemma published_frame_consumed_witness :
  let o := Oracle 0 0 10 in
  let oc := Oracle 92 10 0 in
  let sh := mem (run_test 2) in
  let m := message 5381 (BUF_SIZE - 1) in
  let len := Z.of_nat (length m) in
  exists wp' wc' evs,
    solo (replicate 7 o) sh (spawn 1) = (wp', published sh 10 m, evs) /\
    solo (replicate 5 oc) (published sh 10 m) (set_pc (spawn 0) Consume) =
      (wc', published sh 10 m,
       [EvConsume len 10; EvVerify 10 len; EvRelease len]) /\
    w_pc wc' = Loop.
Proof.
  intros o oc sh m len.
  apply (published_frame_consumed o oc sh (spawn 1) (set_pc (spawn 0) Consume));
    try reflexivity; try (vm_compute; intuition discriminate).
Defined.

(** * The two roles *)

Lemma worker_step_id o sh w w' sh' ev :
  worker_step o sh w = (w', sh', ev) -> w_id w' = w_id w.
Proof.
  intros Hstep. destruct w as [i sd p b l f r t]. simpl in *.
  destruct p; step_cases Hstep; reflexivity.
Qed.

Lemma worker_ids n acts tid w :
  workers (run (run_test n) acts) !! tid = Some w -> w_id w = Z.of_nat tid.
Proof.
  revert tid w. apply (run_invariant (fun s =>
    forall tid w, workers s !! tid = Some w -> w_id w = Z.of_nat tid)).
  - intros tid w Hw. apply spawned in Hw as ->. reflexivity.
  - intros s a IH tid w.
    destruct (sys_step_cases s a)
      as [-> | [-> | (tid' & o & w0 & w' & sh' & ev & _ & Hw0 & Hstep & ->)]];
      simpl; [apply IH | apply IH |].
    destruct (decide (tid' = tid)) as [->|Hne].
    + rewrite list_lookup_insert_eq by (eapply lookup_lt_Some; eassumption).
      intros [= <-]. rewrite (worker_step_id _ _ _ _ _ _ Hstep).
      by apply IH.
    + rewrite list_lookup_insert_ne by assumption. apply IH.
Qed.

Lemma roles_step o sh w es w' sh' ev :
  worker_step o sh w = (w', sh', ev) ->
  (w_id w = 0 -> consumer_pc (w_pc w) /\ Forall consumer_event es) /\
  (w_id w ≠ 0 -> producer_pc (w_pc w) /\ Forall producer_event es) ->
  (w_id w' = 0 ->
   consumer_pc (w_pc w') /\ Forall consumer_event (es ++ option_list ev)) /\
  (w_id w' ≠ 0 ->
   producer_pc (w_pc w') /\ Forall producer_event (es ++ option_list ev)).
Proof.
  intros Hstep [Hc Hp]. rewrite (worker_step_id _ _ _ _ _ _ Hstep).
  split; intros Hid; [destruct (Hc Hid) as [Hpc Hes]
                     |destruct (Hp Hid) as [Hpc Hes]];
    clear Hc Hp; destruct w as [i sd p b l f r t]; simpl in *;
    destruct p; step_cases Hstep; try done;
    (split; [done|]);
    rewrite ?(right_id_L [] (++)); try assumption;
    (apply Forall_app; split; [assumption|]);
    by apply Forall_singleton.
Qed.

(** X9. One consumer, the others producers: in every run thread 0 makes
    only the consumer's calls (consume, [verify_message], release) and never
    writes the region, and every other thread makes only the producer's
    calls ([generate_message], acquire, the copy-in, produce); the id a
    thread tests is the index it was created with. *)
Theorem thread_roles (n : nat) (acts : list action) (tid : nat) (w : worker) :
  workers (run (run_test n) acts) !! tid = Some w ->
  w_id w = Z.of_nat tid /\
  (tid = 0%nat ->
   consumer_pc (w_pc w) /\
   Forall consumer_event (events_of tid (trace (run (run_test n) acts)))) /\
  (tid ≠ 0%nat ->
   producer_pc (w_pc w) /\
   Forall producer_event (events_of tid (trace (run (run_test n) acts)))).
Proof.
  intros Hw. pose proof (worker_ids n acts tid w Hw) as Hid.
  split; [exact Hid|].
  pose proof (thread_invariant n (fun w es =>
    (w_id w = 0 -> consumer_pc (w_pc w) /\ Forall consumer_event es) /\
    (w_id w ≠ 0 -> producer_pc (w_pc w) /\ Forall producer_event es)))
    as Hinv.
  destruct (Hinv) with (acts := acts) (tid := tid) (w := w) as [Hc Hp].
  - intros i. split; intros _; (split; [exact I|constructor]).
  - intros o sh w0 es w' sh' ev. apply roles_step.
  - exact Hw.
  - split; intros Ht.
    + apply Hc. lia.
    + apply Hp. lia.
Qed.

Lemma thread_roles_witness :
  let o := Oracle 0 0 0 in
  let acts := [Run 1 o; Run 1 o; Run 1 o; Run 1 (Oracle 0 0 10); Run 1 o;
               Run 1 o; Run 1 o; Run 0 o; Run 0 o; Run 0 (Oracle 92 10 0);
               Run 0 o; Run 0 o]%nat in
  exists w,
    workers (run (run_test 2) acts) !! 0%nat = Some w /\
    length (events_of 0 (trace (run (run_test 2) acts))) = 3%nat /\
    w_id w = Z.of_nat 0 /\
    (0%nat = 0%nat ->
     consumer_pc (w_pc w) /\
     Forall consumer_event (events_of 0 (trace (run (run_test 2) acts)))) /\
    (0%nat ≠ 0%nat ->
     producer_pc (w_pc w) /\
     Forall producer_event (events_of 0 (trace (run (run_test 2) acts)))).
Proof.
  intros o acts. eexists. split; [vm_compute; reflexivity|].
  split; [reflexivity|].
  apply (thread_roles 2 acts 0). vm_compute. reflexivity.
Defined.

(** * What the consumer releases *)

Lemma decoded_snoc es e : decoded (es ++ [e]) = account (decoded es) e.
Proof. unfold decoded. by rewrite foldl_app. Qed.

Lemma snoc_eq_middle {A} (l l1 l2 : list A) (e x : A) :
  l ++ [e] = l1 ++ x :: l2 ->
  (l2 = [] /\ l = l1 /\ e = x) \/
  (exists l2', l2 = l2' ++ [e] /\ l = l1 ++ x :: l2').
Proof.
  intros H. destruct l2 as [|y l2 _] using rev_ind.
  - left. apply app_inj_tail in H as [-> ->]. done.
  - right. exists l2.
    change (l ++ [e] = l1 ++ (x :: l2) ++ [y]) in H.
    rewrite (assoc_L (++)) in H. apply app_inj_tail in H as [-> ->]. done.
Qed.

Lemma released_snoc (es : list event) (e : event) :
  (forall es1 len es2,
      es = es1 ++ EvRelease len :: es2 -> decoded es1 = len /\ 0 < len) ->
  (forall len, e = EvRelease len -> decoded es = len /\ 0 < len) ->
  forall es1 len es2,
    es ++ [e] = es1 ++ EvRelease len :: es2 -> decoded es1 = len /\ 0 < len.
Proof.
  intros Hold Hnew es1 len es2 H.
  apply snoc_eq_middle in H as [(_ & -> & ->) | (es2' & _ & ->)].
  - by apply Hnew.
  - by eapply Hold.
Qed.

(** What holds of a consumer and its calls so far while it works on a
    claim. *)
Lemma account_step o sh w es w' sh' ev :
  worker_step o sh w = (w', sh', ev) ->
  ((w_pc w = Claimed -> decoded es = 0 /\ 0 < w_len w < 2 ^ 64) /\
   (w_pc w = Decode ->
    0 <= w_rem w < 2 ^ 64 /\ decoded es + w_rem w = w_len w /\ 0 < w_len w) /\
   (w_pc w = Release -> decoded es = w_len w /\ 0 < w_len w) /\
   (forall es1 len es2,
       es = es1 ++ EvRelease len :: es2 -> decoded es1 = len /\ 0 < len)) ->
  (w_pc w' = Claimed ->
   decoded (es ++ option_list ev) = 0 /\ 0 < w_len w' < 2 ^ 64) /\
  (w_pc w' = Decode ->
   0 <= w_rem w' < 2 ^ 64 /\
   decoded (es ++ option_list ev) + w_rem w' = w_len w' /\ 0 < w_len w') /\
  (w_pc w' = Release ->
   decoded (es ++ option_list ev) = w_len w' /\ 0 < w_len w') /\
  (forall es1 len es2,
      es ++ option_list ev = es1 ++ EvRelease len :: es2 ->
      decoded es1 = len /\ 0 < len).
Proof.
  intros Hstep (Hc & Hd & Hr & Hrel).
  destruct w as [i sd p b l f r t]. simpl in *.
  destruct p; step_cases Hstep;
    rewrite ?(right_id_L [] (++)), ?decoded_snoc;
    (split; [|split; [|split]]);
    try done; try (intros; discriminate);
    try (apply released_snoc; [assumption|]; intros; discriminate).
  - (* a nonzero consume *)
    intros _. pose proof (u64_range (o_len o)). simpl. split; [reflexivity|lia].
  - (* the decoding starts *)
    intros _. destruct (Hc eq_refl) as [Hz Hl]. lia.
  - (* one frame decoded *)
    intros _. destruct (Hd eq_refl) as (Hrm & Hsum & Hl). simpl.
    match goal with
    | Hle : ?z <= s64 ?r |- _ =>
        assert (r < 2 ^ 63) by
          (destruct (decide (r < 2 ^ 63)); [assumption|];
           pose proof (s64_big r ltac:(lia)); lia);
        assert (z <= r) by (rewrite <- (s64_small r) by lia; exact Hle)
    end.
    rewrite u64_small by lia. lia.
  - (* the loop ends *)
    intros _. destruct (Hd eq_refl) as (Hrm & Hsum & Hl). lia.
  - (* the release *)
    apply released_snoc; [assumption|]. intros len [= <-]. by apply Hr.
Qed.

(** X10. The consumer releases what it verified: in every run, whatever the
    region holds and whatever the ring buffer answers, each call
    [ringbuf_release(ringbuf, len)] of a thread comes after calls of
    [verify_message] whose return values, since the last
    [ringbuf_consume], add up to exactly [len], and [len] is not 0. *)
Theorem release_accounting (n : nat) (acts : list action) (tid : nat)
    (w : worker) (es1 : list event) (len : Z) (es2 : list event) :
  workers (run (run_test n) acts) !! tid = Some w ->
  events_of tid (trace (run (run_test n) acts))
    = es1 ++ EvRelease len :: es2 ->
  decoded es1 = len /\ 0 < len.
Proof.
  intros Hw. revert es1 len es2.
  refine (proj2 (proj2 (proj2 (thread_invariant n (fun w es =>
    (w_pc w = Claimed -> decoded es = 0 /\ 0 < w_len w < 2 ^ 64) /\
    (w_pc w = Decode ->
     0 <= w_rem w < 2 ^ 64 /\ decoded es + w_rem w = w_len w /\
     0 < w_len w) /\
    (w_pc w = Release -> decoded es = w_len w /\ 0 < w_len w) /\
    (forall es1 len es2,
        es = es1 ++ EvRelease len :: es2 -> decoded es1 = len /\ 0 < len))
    _ _ acts tid w Hw)))).
  - intros i. simpl. split; [|split; [|split]]; try discriminate.
    intros es1 len es2 H. by destruct es1.
  - intros o sh w0 es w' sh' ev. apply account_step.
Qed.

Lemma release_accounting_witness :
  let o := Oracle 0 0 0 in
  let acts := [Run 1 o; Run 1 o; Run 1 o; Run 1 (Oracle 0 0 10); Run 1 o;
               Run 1 o; Run 1 o; Run 0 o; Run 0 o; Run 0 (Oracle 92 10 0);
               Run 0 o; Run 0 o; Run 0 o; Run 0 o]%nat in
  exists w,
    workers (run (run_test 2) acts) !! 0%nat = Some w /\
    decoded [EvObserve 90; EvConsume 92 10; EvVerify 10 92] = 92 /\ 0 < 92.
Proof.
  intros o acts. eexists. split; [vm_compute; reflexivity|].
  eapply (release_accounting 2 acts 0 _ _ 92 []).
  - vm_compute. reflexivity.
  - vm_compute. reflexivity.
Defined.

(** * What the producers generate *)

(** X11. Every message is a frame: in every run each message a thread has
    generated is a well-formed frame of 2 to 254 bytes (so it fits the
    private buffer and its length fits one byte), and [verify_message]
    accepts it with its own length whatever follows it in memory. *)
Theorem generated_frames (n : nat) (acts : list action) (tid : nat)
    (w : worker) (m : list Z) :
  workers (run (run_test n) acts) !! tid = Some w ->
  m ∈ generated (events_of tid (trace (run (run_test n) acts))) ->
  is_frame m /\
  2 <= Z.of_nat (length m) <= 254 /\
  forall rest, verify_message (m ++ rest) = Some (Z.of_nat (length m)).
Proof.
  intros Hw Hm.
  assert (generated (events_of tid (trace (run (run_test n) acts)))
          = nth_message <$>
              seq 0 (length (generated
                               (events_of tid
                                  (trace (run (run_test n) acts))))))
    as Hstream.
  { refine (proj1 (proj2 (thread_invariant n (fun w es =>
      length (w_buf w) = Z.to_nat BUF_SIZE /\
      generated es = nth_message <$> seq 0 (length (generated es)) /\
      w_seed w = nth_seed (length (generated es))) _ _ acts tid w Hw))).
    - intros i. split; [|by split]. reflexivity.
    - intros o sh w0 es w' sh' ev. apply stream_step. }
  rewrite Hstream in Hm. apply list_elem_of_fmap in Hm as (k & -> & _).
  unfold nth_message. split; [|split].
  - rewrite BUF_SIZE_value. apply message_is_frame. lia.
  - rewrite BUF_SIZE_value.
    rewrite (message_length (nth_seed k) (256 - 1)) by lia.
    pose proof (chosen_length_range (nth_seed k) (256 - 1) ltac:(lia)). lia.
  - apply message_accepted.
Qed.

Lemma generated_frames_witness :
  let o := Oracle 0 0 0 in
  let acts := [Run 1 o; Run 1 o; Run 1 o]%nat in
  exists w m,
    workers (run (run_test 2) acts) !! 1%nat = Some w /\
    generated (events_of 1 (trace (run (run_test 2) acts))) = [m] /\
    is_frame m /\
    2 <= Z.of_nat (length m) <= 254 /\
    forall rest, verify_message (m ++ rest) = Some (Z.of_nat (length m)).
Proof.
  intros o acts. eexists _, _. split; [vm_compute; reflexivity|].
  split; [vm_compute; reflexivity|].
  eapply (generated_frames 2 acts 1).
  - vm_compute. reflexivity.
  - vm_compute. apply list_elem_of_here.
Defined.

(** * After the alarm *)

Lemma worker_step_stop o sh w : stop (worker_step o sh w).1.2 = stop sh.
Proof.
  destruct w as [i sd p b l f r t].
  destruct p; unfold worker_step; simpl;
    repeat (case_match || case_decide); simpl; congruence.
Qed.

Lemma solo_app os1 os2 sh w :
  solo (os1 ++ os2) sh w =
  (let '(w1, sh1, e1) := solo os1 sh w in
   let '(w2, sh2, e2) := solo os2 sh1 w1 in
   (w2, sh2, e1 ++ e2)).
Proof.
  revert sh w. induction os1 as [|o os1 IH]; intros sh w; simpl.
  - by destruct (solo os2 sh w) as [[w2 sh2] e2].
  - destruct (worker_step o sh w) as [[w1 sh1] ev]. rewrite IH.
    destruct (solo os1 sh1 w1) as [[w2 sh2] e2].
    destruct (solo os2 sh2 w2) as [[w3 sh3] e3].
    by rewrite (assoc_L (++)).
Qed.

Section Finish.

Variable o : oracle.

Lemma finishes_mono b b' sh w :
  (b <= b')%nat -> finishes o b sh w -> finishes o b' sh w.
Proof.
  intros Hb (k & w' & sh' & evs & Hk & Hsolo & Hend).
  exists k, w', sh', evs. split; [lia|]. by split.
Qed.

Lemma finishes_now b sh w :
  w_pc w = EndBarrier \/ dead w = true -> finishes o b sh w.
Proof. intros H. exists 0%nat, w, sh, []. split; [lia|]. by split. Qed.

Lemma finishes_after k b sh w w1 sh1 evs :
  solo (replicate k o) sh w = (w1, sh1, evs) ->
  finishes o b sh1 w1 -> finishes o (k + b) sh w.
Proof.
  intros Hsolo (k' & w' & sh' & evs' & Hk & Hsolo' & Hend).
  exists (k + k')%nat, w', sh', (evs ++ evs'). split; [lia|].
  split; [|exact Hend]. by rewrite replicate_add, solo_app, Hsolo, Hsolo'.
Qed.

Lemma finishes_step b sh w :
  finishes o b (worker_step o sh w).1.2 (worker_step o sh w).1.1 ->
  finishes o (S b) sh w.
Proof.
  intros H.
  apply (finishes_after 1 b sh w (worker_step o sh w).1.1
           (worker_step o sh w).1.2 (option_list (worker_step o sh w).2));
    [|exact H].
  simpl. destruct (worker_step o sh w) as [[w1 sh1] ev]. simpl.
  by rewrite (right_id_L [] (++)).
Qed.

(** One step, then case analysis on where it leads. *)
Ltac finish_step :=
  apply finishes_step; unfold worker_step; simpl;
  repeat (case_match || case_decide); simpl;
  try (apply finishes_now; by right).

Lemma finish_loop sh w :
  stop sh = true -> w_pc w = Loop -> finishes o 1 sh w.
Proof.
  intros Hstop Hpc. destruct w as [i sd p b l f r t]. simpl in *. subst p.
  apply finishes_step. unfold worker_step. simpl. rewrite Hstop. simpl.
  apply finishes_now. by left.
Qed.

Lemma finish_produce sh w :
  stop sh = true -> w_pc w = Produce -> finishes o 2 sh w.
Proof.
  intros Hstop Hpc. destruct w as [i sd p b l f r t]. simpl in *. subst p.
  finish_step. by apply finish_loop.
Qed.

Lemma finish_copy sh w :
  stop sh = true -> w_pc w = Copy -> finishes o 3 sh w.
Proof.
  intros Hstop Hpc. destruct w as [i sd p b l f r t]. simpl in *. subst p.
  finish_step. by apply finish_produce.
Qed.

Lemma finish_reserved sh w :
  stop sh = true -> w_pc w = Reserved -> finishes o 4 sh w.
Proof.
  intros Hstop Hpc. destruct w as [i sd p b l f r t]. simpl in *. subst p.
  finish_step. by apply finish_copy.
Qed.

Lemma finish_acquire sh w :
  stop sh = true -> w_pc w = Acquire -> finishes o 5 sh w.
Proof.
  intros Hstop Hpc. destruct w as [i sd p b l f r t]. simpl in *. subst p.
  finish_step.
  - by apply finish_reserved.
  - apply (finishes_mono 1); [lia|]. by apply finish_loop.
Qed.

Lemma finish_generate sh w :
  stop sh = true -> w_pc w = Generate -> finishes o 6 sh w.
Proof.
  intros Hstop Hpc. destruct w as [i sd p b l f r t]. simpl in *. subst p.
  finish_step. by apply finish_acquire.
Qed.

Lemma finish_decode sh w :
  stop sh = true -> w_pc w = Decode -> 0 <= w_rem w < 2 ^ 64 ->
  finishes o (Z.to_nat (w_rem w) + 3) sh w.
Proof.
  intros Hstop Hpc Hrem.
  destruct (decode_progress o sh (Z.to_nat (w_rem w)) w Hpc
              ltac:(lia) ltac:(lia))
    as (k & w' & evs & Hk & Hsolo & Hend).
  apply (finishes_mono (k + 1)); [lia|].
  apply (finishes_after k 1 sh w w' sh evs Hsolo).
  destruct Hend as [Hdead|[Hloop _]].
  - apply finishes_now. by right.
  - by apply finish_loop.
Qed.

Lemma finish_claimed sh w :
  stop sh = true -> w_pc w = Claimed -> 0 <= w_len w < 2 ^ 64 ->
  finishes o (Z.to_nat (w_len w) + 4) sh w.
Proof.
  intros Hstop Hpc Hlen. destruct w as [i sd p b l f r t].
  simpl in *. subst p.
  replace (Z.to_nat l + 4)%nat with (S (Z.to_nat l + 3)) by lia.
  finish_step.
  by apply (finish_decode sh (Worker i sd Decode b l f l t)).
Qed.

Lemma finish_consume sh w :
  stop sh = true -> w_pc w = Consume ->
  finishes o (Z.to_nat (u64 (o_len o)) + 5) sh w.
Proof.
  intros Hstop Hpc. destruct w as [i sd p b l f r t]. simpl in *. subst p.
  pose proof (u64_range (o_len o)) as Hrange.
  replace (Z.to_nat (u64 (o_len o)) + 5)%nat
    with (S (Z.to_nat (u64 (o_len o)) + 4)) by lia.
  finish_step.
  - by apply (finish_claimed sh
                (Worker i sd Claimed b (u64 (o_len o)) (u64 (o_off o)) r t)).
  - apply (finishes_mono 1); [lia|]. by apply finish_loop.
Qed.

Lemma finish_guard sh w :
  stop sh = true -> w_pc w = Guard ->
  finishes o (Z.to_nat (u64 (o_len o)) + 7) sh w.
Proof.
  intros Hstop Hpc. destruct w as [i sd p b l f r t]. simpl in *. subst p.
  replace (Z.to_nat (u64 (o_len o)) + 7)%nat
    with (S (Z.to_nat (u64 (o_len o)) + 6)) by lia.
  finish_step.
  - apply (finishes_mono (Z.to_nat (u64 (o_len o)) + 5)); [lia|].
    by apply finish_consume.
  - apply (finishes_mono 6); [lia|]. by apply finish_generate.
Qed.

End Finish.

Lemma stop_stays (s : system) (acts : list action) :
  stop (mem s) = true -> stop (mem (run s acts)) = true.
Proof.
  intros Hstop. apply (run_invariant (fun s' => stop (mem s') = true));
    [exact Hstop|].
  clear. intros s a IH.
  destruct (sys_step_cases s a)
    as [-> | [-> | (tid & o & w & w' & sh' & ev & _ & _ & Hstep & ->)]];
    [exact IH | reflexivity |].
  simpl. pose proof (worker_step_stop o (mem s) w) as Hs.
  rewrite Hstep in Hs. simpl in Hs. congruence.
Qed.

(** X12. The alarm is final: [ding] only sets [stop] and no step of a
    worker clears it, so once the handler has run in a live process, [stop]
    is set in every later state. *)
Theorem alarm_is_final (s : system) (acts1 acts2 : list action) :
  crashed (run s acts1) = false ->
  stop (mem (run s (acts1 ++ Ding :: acts2))) = true.
Proof.
  intros Hlive.
  replace (run s (acts1 ++ Ding :: acts2))
    with (run (sys_step (run s acts1) Ding) acts2)
    by (unfold run; by rewrite foldl_app).
  apply stop_stays. unfold sys_step. by rewrite Hlive.
Qed.

Lemma alarm_is_final_witness :
  let o := Oracle 0 0 0 in
  stop (mem (run (run_test 2) ([Run 1 o; Run 1 o]%nat
                                ++ Ding :: [Run 1 o; Run 0 o]%nat))) = true.
Proof.
  intros o. apply (alarm_is_final (run_test 2)). reflexivity.
Defined.

(** X13. Cancellation terminates: once [stop] is set, a worker at any point
    of the loop reaches the end barrier within a bounded number of its own
    steps (at most the bytes left to decode plus a constant), finishing the
    iteration it is in, unless an assertion or an out-of-bounds access ends
    the process first. *)
Theorem worker_finishes (o : oracle) (sh : shared) (w : worker) :
  stop sh = true ->
  0 <= w_rem w < 2 ^ 64 -> 0 <= w_len w < 2 ^ 64 ->
  finishes o
    (Z.to_nat (w_rem w) + Z.to_nat (w_len w) + Z.to_nat (u64 (o_len o)) + 7)
    sh w.
Proof.
  intros Hstop Hrem Hlen. destruct (w_pc w) as [| | | | | | | | | | | | a |] eqn:Hpc.
  - apply (finishes_mono o 1); [lia|]. by apply finish_loop.
  - apply (finishes_mono o (Z.to_nat (u64 (o_len o)) + 7)); [lia|].
    by apply finish_guard.
  - apply (finishes_mono o (Z.to_nat (u64 (o_len o)) + 5)); [lia|].
    by apply finish_consume.
  - apply (finishes_mono o (Z.to_nat (w_len w) + 4)); [lia|].
    by apply finish_claimed.
  - apply (finishes_mono o (Z.to_nat (w_rem w) + 3)); [lia|].
    by apply finish_decode.
  - apply (finishes_mono o 2); [lia|].
    destruct w as [i sd p b l f r t]. simpl in *. subst p.
    apply finishes_step. unfold worker_step. simpl. by apply finish_loop.
  - apply (finishes_mono o 6); [lia|]. by apply finish_generate.
  - apply (finishes_mono o 5); [lia|]. by apply finish_acquire.
  - apply (finishes_mono o 4); [lia|]. by apply finish_reserved.
  - apply (finishes_mono o 3); [lia|]. by apply finish_copy.
  - apply (finishes_mono o 2); [lia|]. by apply finish_produce.
  - apply finishes_now. by left.
  - apply finishes_now. right. unfold dead. by rewrite Hpc.
  - apply finishes_now. right. unfold dead. by rewrite Hpc.
Qed.

Lemma worker_finishes_witness :
  let o := Oracle 0 0 0 in
  let sh := Shared (rbuf (mem (run_test 2))) true in
  let w := set_pc (spawn 1) Acquire in
  finishes o
    (Z.to_nat (w_rem w) + Z.to_nat (w_len w) + Z.to_nat (u64 (o_len o)) + 7)
    sh w.
Proof.
  intros o sh w. apply (worker_finishes o sh w); [reflexivity| |]; simpl; lia.
Defined.

(** * Who writes the region *)

Lemma memcpy_length (dst src r : list Z) (off n : Z) :
  memcpy dst off src n = Some r -> length r = length dst.
Proof.
  unfold memcpy. intros H. repeat case_decide; simplify_eq.
  rewrite !length_app, !length_take, length_drop. lia.
Qed.

(** A copy changes no byte outside [[off, off + n)]. *)
Lemma memcpy_outside (dst src r : list Z) (off n : Z) (j : nat) :
  memcpy dst off src n = Some r -> 0 <= off ->
  ~ (off <= Z.of_nat j < off + n) ->
  r !! j = dst !! j.
Proof.
  unfold memcpy. intros H Hoff Hj. repeat case_decide; simplify_eq.
  destruct (decide (0 <= n)) as [Hn|Hn].
  - destruct (decide (Z.of_nat j < off)) as [Hlt|Hge].
    + rewrite lookup_app_l by (rewrite length_take; lia).
      apply lookup_take_lt. lia.
    + rewrite (assoc_L (++)), lookup_app_r
        by (rewrite length_app, !length_take; lia).
      rewrite lookup_drop. f_equal.
      rewrite length_app, !length_take. lia.
  - replace (Z.to_nat n) with 0%nat by lia. simpl.
    by rewrite Nat.add_0_r, take_drop.
Qed.

Lemma region_step o sh w w' sh' ev :
  worker_step o sh w = (w', sh', ev) -> 0 <= w_off w ->
  0 <= w_off w' /\
  length (rbuf sh') = length (rbuf sh) /\
  forall j : nat,
    (forall e, ev = Some e -> ~ covers (Z.of_nat j) e) ->
    rbuf sh' !! j = rbuf sh !! j.
Proof.
  intros Hstep Hoff. destruct w as [i sd p b l f r t]. simpl in *.
  destruct p; step_cases Hstep;
    try (split; [first [assumption | apply u64_range]|]; by split).
  match goal with
  | H : memcpy _ _ _ _ = Some _ |- _ => rename H into Hcopy
  end.
  split; [assumption|]. split.
  - by apply memcpy_length in Hcopy.
  - intros j Hj.
    apply (memcpy_outside _ _ _ _ _ j Hcopy Hoff).
    exact (Hj _ eq_refl).
Qed.

(** X14. Only a copy-in writes the region: in every run [rbuf] keeps its
    513 bytes, and a byte of it (the guard byte included) that no copy-in
    [memcpy(&rbuf[off], buf, len)] so far has covered still holds the magic
    byte that [run_test] put there. *)
Theorem untouched_bytes (n : nat) (acts : list action) (j : nat) :
  (j <= Z.to_nat RBUF_SIZE)%nat ->
  Forall (fun te => ~ covers (Z.of_nat j) te.2)
    (trace (run (run_test n) acts)) ->
  length (rbuf (mem (run (run_test n) acts))) = Z.to_nat (RBUF_SIZE + 1) /\
  rbuf (mem (run (run_test n) acts)) !! j = Some MAGIC_BYTE.
Proof.
  intros Hj Htr.
  cut (Forall (fun w => 0 <= w_off w) (workers (run (run_test n) acts)) /\
       length (rbuf (mem (run (run_test n) acts)))
         = Z.to_nat (RBUF_SIZE + 1) /\
       (Forall (fun te => ~ covers (Z.of_nat j) te.2)
          (trace (run (run_test n) acts)) ->
        rbuf (mem (run (run_test n) acts)) !! j = Some MAGIC_BYTE)).
  { intros (_ & Hlen & Hbyte). split; [exact Hlen|by apply Hbyte]. }
  clear Htr.
  apply (run_invariant (fun s =>
    Forall (fun w => 0 <= w_off w) (workers s) /\
    length (rbuf (mem s)) = Z.to_nat (RBUF_SIZE + 1) /\
    (Forall (fun te => ~ covers (Z.of_nat j) te.2) (trace s) ->
     rbuf (mem s) !! j = Some MAGIC_BYTE))).
  - split; [|split].
    + simpl. apply Forall_fmap, Forall_forall. intros i _. simpl. lia.
    + reflexivity.
    + intros _.
      change (rbuf (mem (run_test n)))
        with (replicate (Z.to_nat (RBUF_SIZE + 1)) MAGIC_BYTE).
      apply lookup_replicate_2. unfold RBUF_SIZE in *. lia.
  - intros s a (Hws & Hlen & Hbyte).
    destruct (sys_step_cases s a)
      as [-> | [-> | (tid & o & w & w' & sh' & ev & _ & Hw & Hstep & ->)]];
      [by repeat split | by repeat split |].
    pose proof (proj1 (Forall_lookup _ _) Hws _ _ Hw) as Hoff.
    destruct (region_step _ _ _ _ _ _ Hstep Hoff) as (Hoff' & Hlen' & Hsame).
    simpl. split; [by apply Forall_insert|]. split; [congruence|].
    intros Htr. apply Forall_app in Htr as [Htr Hev].
    rewrite Hsame; [by apply Hbyte|].
    intros e ->. simpl in Hev. by apply Forall_inv in Hev.
Qed.

Lemma untouched_bytes_witness :
  let o := Oracle 0 0 0 in
  let acts := [Run 1 o; Run 1 o; Run 1 o; Run 1 (Oracle 0 0 10); Run 1 o;
               Run 1 o; Run 1 o]%nat in
  trace (run (run_test 2) acts) !! 3%nat = Some (1%nat, EvCopy 10 92) /\
  length (rbuf (mem (run (run_test 2) acts))) = Z.to_nat (RBUF_SIZE + 1) /\
  rbuf (mem (run (run_test 2) acts)) !! 102%nat = Some MAGIC_BYTE.
Proof.
  intros o acts. split; [vm_compute; reflexivity|].
  apply (untouched_bytes 2 acts 102).
  - vm_compute. lia.
  - set (tr := trace (run (run_test 2) acts)). vm_compute in tr. subst tr.
    repeat constructor; simpl; (tauto || lia).
Defined.

(** * The reservation protocol of the producer *)

Lemma copies_snoc (es : list event) (e : event) :
  (forall l1 x l2, es = l1 ++ x :: l2 ->
     forall off len, x = EvCopy off len -> reserved_copy l1 off len) ->
  (forall off len, e = EvCopy off len -> reserved_copy es off len) ->
  forall l1 x l2, es ++ [e] = l1 ++ x :: l2 ->
    forall off len, x = EvCopy off len -> reserved_copy l1 off len.
Proof.
  intros Hold Hnew l1 x l2 H.
  apply snoc_eq_middle in H as [(_ & -> & ->) | (l2' & _ & ->)].
  - exact Hnew.
  - by eapply Hold.
Qed.

Lemma reservation_step o sh w es w' sh' ev :
  worker_step o sh w = (w', sh', ev) ->
  (length (w_buf w) = Z.to_nat BUF_SIZE /\
   (w_pc w = Acquire ->
    exists es0 m, es = es0 ++ [EvGenerate m] /\
                  Z.of_nat (length m) = w_len w /\ 2 <= w_len w <= 254) /\
   (w_pc w = Reserved ->
    reserved_copy es (u64 (w_ret w)) (w_len w) /\
    exists es0 m, es = es0 ++ [EvGenerate m; EvAcquire (w_len w) (w_ret w)]) /\
   (w_pc w = Copy -> reserved_copy es (w_off w) (w_len w)) /\
   (forall l1 x l2, es = l1 ++ x :: l2 ->
      forall off len, x = EvCopy off len -> reserved_copy l1 off len)) ->
  length (w_buf w') = Z.to_nat BUF_SIZE /\
  (w_pc w' = Acquire ->
   exists es0 m, es ++ option_list ev = es0 ++ [EvGenerate m] /\
                 Z.of_nat (length m) = w_len w' /\ 2 <= w_len w' <= 254) /\
  (w_pc w' = Reserved ->
   reserved_copy (es ++ option_list ev) (u64 (w_ret w')) (w_len w') /\
   exists es0 m,
     es ++ option_list ev
       = es0 ++ [EvGenerate m; EvAcquire (w_len w') (w_ret w')]) /\
  (w_pc w' = Copy -> reserved_copy (es ++ option_list ev) (w_off w') (w_len w')) /\
  (forall l1 x l2, es ++ option_list ev = l1 ++ x :: l2 ->
     forall off len, x = EvCopy off len -> reserved_copy l1 off len).
Proof.
  intros Hstep (Hbuf & Ha & Hr & Hc & Hold).
  destruct w as [i sd p b l f r t]. cbn [w_pc w_buf w_len w_ret w_off] in *.
  destruct p.
  8:{ (* the acquire *)
      unfold worker_step in Hstep. cbn [w_pc] in Hstep.
      destruct (Ha eq_refl) as (es0 & m & -> & Hm & Hl).
      case_decide; simplify_eq; cbn [w_pc w_buf w_len w_ret w_off set_pc set_ret option_list];
        (split; [assumption|]); (split; [intros; discriminate|]).
      - split.
        + intros _. split.
          * exists es0, m, (s64 (o_ret o)).
            rewrite <- (assoc_L (++)). repeat split; (done || lia).
          * exists es0, m. by rewrite <- (assoc_L (++)).
        + split; [intros; discriminate|].
          apply copies_snoc; [assumption|]. intros; discriminate.
      - split; [intros; discriminate|]. split; [intros; discriminate|].
        apply copies_snoc; [assumption|]. intros; discriminate. }
  7:{ (* the call of generate_message *)
      unfold worker_step in Hstep. cbn [w_pc w_seed w_buf] in Hstep.
      rewrite BUF_SIZE_value in *.
      pose proof (generate_message_spec sd (256 - 1) ltac:(lia) b
                    ltac:(lia) ltac:(lia)) as Hgen.
      pose proof (message_length sd (256 - 1) ltac:(lia)) as Hml.
      pose proof (chosen_length_range sd (256 - 1) ltac:(lia)) as Hcl.
      remember (message sd (256 - 1)) as m eqn:Hm. clear Hm.
      rewrite Hgen in Hstep. simplify_eq.
      cbn [w_pc w_buf w_len w_ret w_off set_pc set_message option_list].
      assert (take (Z.to_nat (chosen_length sd (256 - 1) + 2))
                (m ++ drop (length m) b) = m) as ->
        by (apply take_app_length'; lia).
      split; [rewrite length_app, length_drop; lia|].
      split; [intros _; exists es, m; split; [reflexivity|lia]|].
      split; [intros; discriminate|]. split; [intros; discriminate|].
      apply copies_snoc; [assumption|]. intros; discriminate. }
  all: step_cases Hstep; rewrite ?(right_id_L [] (++));
    (split; [assumption|]);
    (split; [intros; discriminate|]);
    (split; [intros; discriminate|]);
    try (split; [intros; discriminate|]);
    try assumption;
    try (apply copies_snoc; [assumption|]; intros; discriminate).
  - (* the reservation is checked *)
    split; [intros _; by apply Hr|assumption].
  - (* the copy-in *)
    apply copies_snoc; [assumption|]. intros off len [= <- <-]. by apply Hc.
Qed.

(** X15. The producer's protocol with the ring buffer: in every run each
    copy-in [memcpy(&rbuf[off], buf, len)] of a thread comes directly after
    that thread's [ringbuf_acquire] of the same [len], which did not return
    -1 and returned [off], and that directly after the generation of a
    message of exactly [len] bytes, [len] between 2 and 254; a thread never
    copies in without a reservation, nor more or less than it reserved. *)
Theorem copy_follows_reservation (n : nat) (acts : list action) (tid : nat)
    (w : worker) (es1 : list event) (off len : Z) (es2 : list event) :
  workers (run (run_test n) acts) !! tid = Some w ->
  events_of tid (trace (run (run_test n) acts))
    = es1 ++ EvCopy off len :: es2 ->
  reserved_copy es1 off len.
Proof.
  intros Hw Hes.
  pose proof (thread_invariant n (fun w es =>
    length (w_buf w) = Z.to_nat BUF_SIZE /\
    (w_pc w = Acquire ->
     exists es0 m, es = es0 ++ [EvGenerate m] /\
                   Z.of_nat (length m) = w_len w /\ 2 <= w_len w <= 254) /\
    (w_pc w = Reserved ->
     reserved_copy es (u64 (w_ret w)) (w_len w) /\
     exists es0 m,
       es = es0 ++ [EvGenerate m; EvAcquire (w_len w) (w_ret w)]) /\
    (w_pc w = Copy -> reserved_copy es (w_off w) (w_len w)) /\
    (forall l1 x l2, es = l1 ++ x :: l2 ->
       forall off len, x = EvCopy off len -> reserved_copy l1 off len)))
    as Hinv.
  destruct Hinv with (acts := acts) (tid := tid) (w := w)
    as (_ & _ & _ & _ & Hcopies).
  - intros i. split; [reflexivity|].
    split; [discriminate|]. split; [discriminate|]. split; [discriminate|].
    intros l1 x l2 H. by destruct l1.
  - intros o sh w0 es w' sh' ev. apply reservation_step.
  - exact Hw.
  - by eapply Hcopies.
Qed.

Lemma copy_follows_reservation_witness :
  let o := Oracle 0 0 0 in
  let acts := [Run 1 o; Run 1 o; Run 1 o; Run 1 (Oracle 0 0 10); Run 1 o;
               Run 1 o; Run 1 o]%nat in
  exists w m,
    workers (run (run_test 2) acts) !! 1%nat = Some w /\
    reserved_copy [EvObserve 90; EvGenerate m; EvAcquire 92 10] 10 92.
Proof.
  intros o acts. eexists _, _. split; [vm_compute; reflexivity|].
  eapply (copy_follows_reservation 2 acts 1 _ _ 10 92 [EvProduce]).
  - vm_compute. reflexivity.
  - vm_compute. reflexivity.
Defined.
